(** * commet: commit parser, bump resolver and version calculator

    A shallow embedding of the decision logic of the [commet] tool:
    - [internal/config]  : [BumpType], [Config], [GetBumpType];
    - [internal/parser]  : [Commit], the four patterns, [Parse],
      [ParseMultiple], [String];
    - [internal/version] : [Calculate], [DetermineBump], [maxBump],
      [IsValid], [Compare].

    Go strings are byte strings and are modelled by [string], one [ascii]
    per byte.  Go maps are [gmap]s.  A Go result [(v, err)] is a tuple
    whose last component is an [option error], [None] standing for [nil].

    The file has two parts: the definitions (the pieces of the Go
    standard library the code calls, the semver package it depends on,
    then the three packages), and the lemmas and theorems about them. *)

From Stdlib Require Import ZArith NArith Ascii String Lia DecimalString.
From Stdlib Require Import Floats.SpecFloat.
From stdpp Require Import base option list gmap strings sorting.

Local Open Scope Z_scope.

(** * Part I: definitions *)

(** ** Bytes and character classes *)

Definition byte_eq (a b : ascii) : bool := Ascii.eqb a b.

(** [in_range lo hi c]: the byte [c] lies in [lo-hi], as in a
    bracket expression [[lo-hi]]. *)
Definition in_range (lo hi c : ascii) : bool :=
  (N_of_ascii lo <=? N_of_ascii c)%N && (N_of_ascii c <=? N_of_ascii hi)%N.

Definition newline : ascii := "010"%char.

(** The Perl classes of Go's [regexp/syntax], which are ASCII only:
    [\d] is [[0-9]], [\w] is [[0-9A-Za-z_]], [\s] is [[\t\n\f\r ]]. *)
Definition is_upper (c : ascii) : bool := in_range "A" "Z" c.
Definition is_digit (c : ascii) : bool := in_range "0" "9" c.
Definition is_word (c : ascii) : bool :=
  in_range "0" "9" c || in_range "A" "Z" c || in_range "a" "z" c || byte_eq c "_".
Definition is_perl_space (c : ascii) : bool :=
  byte_eq c "009" || byte_eq c "010" || byte_eq c "012" || byte_eq c "013"
  || byte_eq c " ".
(** [[^x]] and [.] (without the [s] flag, [.] excludes the newline). *)
Definition is_not (x c : ascii) : bool := negb (byte_eq c x).
Definition is_any (c : ascii) : bool := negb (byte_eq c newline).

(** [all_bytes p s]: every byte of [s] satisfies [p]. *)
Fixpoint all_bytes (p : ascii → bool) (s : string) : bool :=
  match s with
  | EmptyString => true
  | String c s' => p c && all_bytes p s'
  end.

(** ** The functions of Go's [strings] package used by the code *)

Module strings.

Fixpoint HasPrefix (s prefix : string) {struct prefix} : bool :=
  match prefix, s with
  | EmptyString, _ => true
  | String _ _, EmptyString => false
  | String p prefix', String c s' => byte_eq c p && HasPrefix s' prefix'
  end.

(** [s[n:]] *)
Fixpoint slice_from (n : nat) (s : string) : string :=
  match n, s with
  | O, _ => s
  | S _, EmptyString => EmptyString
  | S n', String _ s' => slice_from n' s'
  end.

(** [s[:n]] *)
Definition slice_to (n : nat) (s : string) : string := String.substring 0 n s.

Definition TrimPrefix (s prefix : string) : string :=
  if HasPrefix s prefix then slice_from (String.length prefix) s else s.

Definition HasSuffix (s suffix : string) : bool :=
  (String.length suffix <=? String.length s)%nat
  && String.eqb (slice_from (String.length s - String.length suffix) s) suffix.

Definition TrimSuffix (s suffix : string) : string :=
  if HasSuffix s suffix
  then slice_to (String.length s - String.length suffix) s
  else s.

Fixpoint Contains (s substr : string) : bool :=
  HasPrefix s substr
  || match s with
     | EmptyString => false
     | String _ s' => Contains s' substr
     end.

(** [Cut s sep]: the text before and after the first occurrence of [sep],
    if there is one. *)
Fixpoint Cut (s sep : string) : option (string * string) :=
  if HasPrefix s sep then Some (EmptyString, slice_from (String.length sep) s)
  else match s with
       | EmptyString => None
       | String c s' =>
           match Cut s' sep with
           | Some (before, after) => Some (String c before, after)
           | None => None
           end
       end.

(** [SplitN s sep n] for a non-empty [sep] and [n > 0]: at most [n]
    pieces, the last one holding the unsplit rest. *)
Fixpoint SplitN (s sep : string) (n : nat) : list string :=
  match n with
  | O => []
  | S O => [s]
  | S n' =>
      match Cut s sep with
      | Some (before, after) => before :: SplitN after sep n'
      | None => [s]
      end
  end.

Fixpoint Join (elems : list string) (sep : string) : string :=
  match elems with
  | [] => EmptyString
  | [e] => e
  | e :: rest => e +:+ sep +:+ Join rest sep
  end.

(** *** [TrimSpace]

    [TrimSpace] removes the leading and trailing runes for which
    [unicode.IsSpace] holds.  On the UTF-8 bytes of the string these are
    the six ASCII bytes tab, newline, vertical tab, form feed, carriage
    return and space, and the encodings of U+0085, U+00A0 (two bytes),
    U+1680, U+2000-U+200A, U+2028, U+2029, U+202F, U+205F and U+3000
    (three bytes).  A byte that starts no valid encoding decodes to
    U+FFFD, which is not a space. *)

Definition space1 (c : ascii) : bool :=
  let n := N_of_ascii c in
  ((9 <=? n) && (n <=? 13) || (n =? 32))%N.

Definition space2 (c1 c2 : ascii) : bool :=
  let n1 := N_of_ascii c1 in
  let n2 := N_of_ascii c2 in
  ((n1 =? 194) && ((n2 =? 133) || (n2 =? 160)))%N.

Definition space3 (c1 c2 c3 : ascii) : bool :=
  let n1 := N_of_ascii c1 in
  let n2 := N_of_ascii c2 in
  let n3 := N_of_ascii c3 in
  ((n1 =? 225) && (n2 =? 154) && (n3 =? 128)
   || (n1 =? 226) && (n2 =? 128)
      && ((128 <=? n3) && (n3 <=? 138) || (n3 =? 168) || (n3 =? 169) || (n3 =? 175))
   || (n1 =? 226) && (n2 =? 129) && (n3 =? 159)
   || (n1 =? 227) && (n2 =? 128) && (n3 =? 128))%N.

(** [TrimLeftFunc s unicode.IsSpace]: decode runes from the front and
    drop them while they are spaces. *)
Fixpoint TrimLeftSpace (s : string) : string :=
  match s with
  | EmptyString => EmptyString
  | String c1 r1 =>
      if space1 c1 then TrimLeftSpace r1
      else match r1 with
           | EmptyString => s
           | String c2 r2 =>
               if space2 c1 c2 then TrimLeftSpace r2
               else match r2 with
                    | EmptyString => s
                    | String c3 r3 =>
                        if space3 c1 c2 c3 then TrimLeftSpace r3 else s
                    end
           end
  end.

(** [s] is exactly the encoding of one space rune. *)
Definition is_space_rune (s : string) : bool :=
  match s with
  | String c1 EmptyString => space1 c1
  | String c1 (String c2 EmptyString) => space2 c1 c2
  | String c1 (String c2 (String c3 EmptyString)) => space3 c1 c2 c3
  | _ => false
  end.

(** [TrimRightFunc s unicode.IsSpace]: drop the last rune while it is a
    space.  Computed from the left: once the rest has been trimmed, the
    string ends with a space rune only if it is one. *)
Fixpoint TrimRightSpace (s : string) : string :=
  match s with
  | EmptyString => EmptyString
  | String c r =>
      let t := String c (TrimRightSpace r) in
      if is_space_rune t then EmptyString else t
  end.

Definition TrimSpace (s : string) : string := TrimRightSpace (TrimLeftSpace s).

(** [Split s sep] for a non-empty [sep]: every piece of [s] between
    the occurrences of [sep].  A text of [n] bytes holds at most [n]
    separators, so the bound given to [SplitN] is never reached. *)
Definition Split (s sep : string) : list string :=
  SplitN s sep (S (String.length s)).

(** [ReplaceAll s old new] for a non-empty [old]: the occurrences of
    [old], found from left to right without overlap, are the
    separators of [Split]; each is replaced by [new]. *)
Definition ReplaceAll (s old new : string) : string := Join (Split s old) new.

End strings.

(** ** Go's [regexp], for the constructs the four patterns use

    Go's [regexp] returns the leftmost match and, among those, the one a
    backtracking matcher finds first; greedy operators try the longest
    repetition first.  The matcher below is that backtracking search,
    written with a continuation for the rest of the pattern.  Repetition
    is only needed over single-byte classes.  On the bytes of a string
    this agrees with matching on runes: the classes used are ASCII
    classes or exclude one ASCII byte, and every repetition is followed
    by an ASCII literal or by the end of the text. *)

Module regexp.

Inductive regex : Type :=
  | Lit (w : string)                  (* literal text *)
  | Plus (p : ascii → bool)           (* [c+] for a class [c], greedy *)
  | Star (p : ascii → bool)           (* [c*] for a class [c], greedy *)
  | Seq (r1 r2 : regex)               (* concatenation *)
  | Opt (r : regex)                   (* [r?], greedy *)
  | Group (name : string) (r : regex) (* [(?P<name>r)] *).

(** A compiled pattern [^body$]. *)
Record Regexp := MustCompile { body : regex }.

(** The texts captured so far, by group name. *)
Abbreviation captures := (gmap string string).

Section matcher.
Context {A : Type}.

Fixpoint star (p : ascii → bool) (s : string) (k : string → option A)
  : option A :=
  match s with
  | String c s' =>
      if p c then
        match star p s' k with
        | Some r => Some r
        | None => k s
        end
      else k s
  | EmptyString => k s
  end.

Definition plus (p : ascii → bool) (s : string) (k : string → option A)
  : option A :=
  match s with
  | String c s' => if p c then star p s' k else None
  | EmptyString => None
  end.
End matcher.

(** The text consumed between the input [s] and its remainder [s']. *)
Definition consumed (s s' : string) : string :=
  strings.slice_to (String.length s - String.length s') s.

Fixpoint run (r : regex) (s : string) (caps : captures)
    (k : string → captures → option captures) : option captures :=
  match r with
  | Lit w =>
      if strings.HasPrefix s w
      then k (strings.slice_from (String.length w) s) caps
      else None
  | Plus p => plus p s (λ s', k s' caps)
  | Star p => star p s (λ s', k s' caps)
  | Seq r1 r2 => run r1 s caps (λ s' caps', run r2 s' caps' k)
  | Opt r1 =>
      match run r1 s caps k with
      | Some res => Some res
      | None => k s caps
      end
  | Group name r1 =>
      run r1 s caps (λ s' caps', k s' (<[name := consumed s s']> caps'))
  end.

(** The names of the capture groups, in the order of their opening
    parentheses. *)
Fixpoint group_names (r : regex) : list string :=
  match r with
  | Lit _ | Plus _ | Star _ => []
  | Seq r1 r2 => group_names r1 ++ group_names r2
  | Opt r1 => group_names r1
  | Group name r1 => name :: group_names r1
  end.

(** [SubexpNames]: index 0 is the whole match and has the empty name. *)
Definition SubexpNames (re : Regexp) : list string :=
  EmptyString :: group_names (body re).

Definition at_end (s : string) (caps : captures) : option captures :=
  match s with
  | EmptyString => Some caps
  | String _ _ => None
  end.

(** [FindStringSubmatch]: [None] is the [nil] slice of no match;
    otherwise the whole match followed by the text of each group, the
    empty string for a group that took no part in the match. *)
Definition FindStringSubmatch (re : Regexp) (s : string) : option (list string) :=
  match run (body re) s ∅ at_end with
  | Some caps =>
      Some (s :: map (λ name, default EmptyString (caps !! name))
                     (group_names (body re)))
  | None => None
  end.

(** [MatchString], for a pattern anchored at both ends. *)
Definition MatchString (re : Regexp) (s : string) : bool :=
  match FindStringSubmatch re s with
  | Some _ => true
  | None => false
  end.

End regexp.

Declare Scope regex_scope.
Delimit Scope regex_scope with re.
Bind Scope regex_scope with regexp.regex.
Infix "⋅" := regexp.Seq (at level 60, right associativity) : regex_scope.

(** ** Errors *)

(** Go's [error] values, as far as the code builds them: the parse error
    of the semver package, and [fmt.Errorf] with a [%w] verb, whose
    [text] is the formatted message up to the wrapped error. *)
Inductive error : Type :=
  | ErrInvalidSemVer
  | Errorf (text : string) (wrapped : error).

(** ** The semver package

    [github.com/Masterminds/semver/v3] is a dependency of the repository
    and its source is not part of it.  The module below holds what the
    specification says of version parsing, bumping, rendering and
    comparison. *)

Module semver.

(** Modelled from the spec: the parsed version of the semver package,
    "three non-negative integers (major, minor, patch)". *)
Record Version := mkVersion {
  Major : N;
  Minor : N;
  Patch : N
}.

(** Modelled from the spec: the value of one component of a "dotted
    numeric version", a non-empty run of decimal digits. *)
Fixpoint digits_value (s : string) (acc : N) : option N :=
  match s with
  | EmptyString => Some acc
  | String c s' =>
      if is_digit c
      then digits_value s' (10 * acc + (N_of_ascii c - N_of_ascii "0"))%N
      else None
  end.

(** Modelled from the spec: one component of a dotted version; the empty
    text is not a number. *)
Definition component (s : string) : option N :=
  match s with
  | EmptyString => None
  | String _ _ => digits_value s 0%N
  end.

(** Modelled from the spec: the components of a dotted version, the
    pieces of the text between its dots. *)
Fixpoint split_dots (s : string) : list string :=
  match s with
  | EmptyString => [EmptyString]
  | String c s' =>
      if byte_eq c "."
      then EmptyString :: split_dots s'
      else match split_dots s' with
           | piece :: pieces => String c piece :: pieces
           | [] => [String c EmptyString]
           end
  end.

(** Modelled from the spec: [semver.NewVersion], which accepts "a
    well-formed non-negative dotted-integer version (1-3 components)",
    "versions missing trailing components default the missing ones to
    zero", and fails otherwise. *)
Definition NewVersion (v : string) : Version + error :=
  match split_dots v with
  | [a] =>
      match component a with
      | Some x => inl (mkVersion x 0 0)
      | None => inr ErrInvalidSemVer
      end
  | [a; b] =>
      match component a, component b with
      | Some x, Some y => inl (mkVersion x y 0)
      | _, _ => inr ErrInvalidSemVer
      end
  | [a; b; c] =>
      match component a, component b, component c with
      | Some x, Some y, Some z => inl (mkVersion x y z)
      | _, _, _ => inr ErrInvalidSemVer
      end
  | _ => inr ErrInvalidSemVer
  end.

(** Modelled from the spec: the decimal rendering of a component. *)
Definition decimal (n : N) : string := NilEmpty.string_of_uint (N.to_uint n).

(** Modelled from the spec: [Version.String], "re-serialize as
    MAJOR.MINOR.PATCH". *)
Definition String (v : Version) : string :=
  decimal (Major v) +:+ "." +:+ decimal (Minor v) +:+ "." +:+ decimal (Patch v).

(** Modelled from the spec: [Version.IncMajor], "major -> (major+1, 0, 0)". *)
Definition IncMajor (v : Version) : Version := mkVersion (Major v + 1) 0 0.

(** Modelled from the spec: [Version.IncMinor], "minor -> (major, minor+1, 0)". *)
Definition IncMinor (v : Version) : Version := mkVersion (Major v) (Minor v + 1) 0.

(** Modelled from the spec: [Version.IncPatch], "patch -> (major, minor,
    patch+1)". *)
Definition IncPatch (v : Version) : Version :=
  mkVersion (Major v) (Minor v) (Patch v + 1).

(** Modelled from the spec: the comparison of two components. *)
Definition compare_component (a b : N) : Z :=
  match (a ?= b)%N with
  | Lt => -1
  | Eq => 0
  | Gt => 1
  end.

(** Modelled from the spec: [Version.Compare], "standard integer triple
    comparison" with results in {-1, 0, 1}. *)
Definition Compare (v o : Version) : Z :=
  if negb (compare_component (Major v) (Major o) =? 0)
  then compare_component (Major v) (Major o)
  else if negb (compare_component (Minor v) (Minor o) =? 0)
  then compare_component (Minor v) (Minor o)
  else compare_component (Patch v) (Patch o).

End semver.

(** ** internal/config *)

Module config.

(** [type BumpType string] and its four constants. *)
Definition BumpType := string.

Definition BumpNone : BumpType := "none".
Definition BumpPatch : BumpType := "patch".
Definition BumpMinor : BumpType := "minor".
Definition BumpMajor : BumpType := "major".

Record VersionConfig := mkVersionConfig {
  File : string;
  Key : string;
  Initial : string;
  Format : string
}.

(** The fields of [Config] that the version calculator reads. *)
Record Config := mkConfig {
  Version : VersionConfig;
  BumpRules : gmap string BumpType
}.

Definition DefaultConfig : Config :=
  mkConfig
    (mkVersionConfig "composer.json" "version" "0.1.0" "semver")
    {[ "Fix" := BumpPatch;
       "Feature" := BumpMinor;
       "Refactor" := BumpPatch;
       "Style" := BumpNone;
       "Docs" := BumpNone;
       "Build" := BumpPatch;
       "Tests" := BumpNone;
       "Breaking" := BumpMajor;
       "!" := BumpMajor ]}.

Definition GetBumpType (c : Config) (commitType : string) : BumpType :=
  match BumpRules c !! commitType with
  | Some bump => bump
  | None => BumpNone
  end.

Record DetectionConfig := mkDetectionConfig {
  Strategies : list string;
  TagPattern : string;
  ExcludeMerges : bool
}.

Record GitConfig := mkGitConfig {
  AutoCommit : bool;
  CommitMessage : string;
  AutoTag : bool;
  TagFormat : string;
  TagMessage : string
}.

(** The struct [Config] with all its fields.  [Core] holds the fields
    [Version] and [BumpRules], which are the record [Config] above; the
    other three fields follow. *)
Record Settings := mkSettings {
  Core : Config;
  Detection : DetectionConfig;
  Git : GitConfig;
  AdditionalFiles : list VersionConfig
}.

(** The whole of [DefaultConfig()]. *)
Definition DefaultSettings : Settings :=
  mkSettings DefaultConfig
    (mkDetectionConfig ["git-tags"; "version-file"]
       "^v?([0-9]+\.[0-9]+\.[0-9]+)$" true)
    (mkGitConfig false "Conf: bump version to {version}" false "v{version}"
       "Release {version}")
    [].

Definition set_Initial (c : Settings) (v : string) : Settings :=
  mkSettings
    (mkConfig
       (mkVersionConfig (File (Version (Core c))) (Key (Version (Core c))) v
          (Format (Version (Core c))))
       (BumpRules (Core c)))
    (Detection c) (Git c) (AdditionalFiles c).

Definition set_Format (c : Settings) (v : string) : Settings :=
  mkSettings
    (mkConfig
       (mkVersionConfig (File (Version (Core c))) (Key (Version (Core c)))
          (Initial (Version (Core c))) v)
       (BumpRules (Core c)))
    (Detection c) (Git c) (AdditionalFiles c).

Definition set_Strategies (c : Settings) (v : list string) : Settings :=
  mkSettings (Core c)
    (mkDetectionConfig v (TagPattern (Detection c)) (ExcludeMerges (Detection c)))
    (Git c) (AdditionalFiles c).

Definition set_TagPattern (c : Settings) (v : string) : Settings :=
  mkSettings (Core c)
    (mkDetectionConfig (Strategies (Detection c)) v (ExcludeMerges (Detection c)))
    (Git c) (AdditionalFiles c).

(** [(c *Config) Validate()]: the receiver is a pointer, so the
    defaults written before a failing check stay written.  The result
    is the configuration after the call and the error, an error made
    by [fmt.Errorf] from a text alone being that text. *)
Definition Validate (c : Settings) : Settings * option string :=
  if String.eqb (File (Version (Core c))) "" then
    (c, Some "version.file is required")
  else if String.eqb (Key (Version (Core c))) "" then
    (c, Some "version.key is required")
  else
    let c :=
      if String.eqb (Initial (Version (Core c))) "" then set_Initial c "0.1.0"
      else c in
    let c :=
      if String.eqb (Format (Version (Core c))) "" then set_Format c "semver"
      else c in
    if negb (String.eqb (Format (Version (Core c))) "semver")
       && negb (String.eqb (Format (Version (Core c))) "v-prefix")
    then (c, Some "version.format must be 'semver' or 'v-prefix'")
    else if (size (BumpRules (Core c)) =? 0)%nat then
      (c, Some "bump_rules cannot be empty")
    else
      let c :=
        if (length (Strategies (Detection c)) =? 0)%nat
        then set_Strategies c ["git-tags"; "version-file"]
        else c in
      let c :=
        if String.eqb (TagPattern (Detection c)) ""
        then set_TagPattern c "^v?([0-9]+\.[0-9]+\.[0-9]+)$"
        else c in
      (c, None).

Definition GetVersionFiles (c : Settings) : list VersionConfig :=
  let files := [Version (Core c)] in
  files ++ AdditionalFiles c.

End config.

Export config.

(** ** internal/parser *)

Module parser.

Import regexp.
Local Open Scope regex_scope.

(** [type Commit struct]; the field [Type] is named [Type_] here. *)
Record Commit := mkCommit {
  Hash : string;
  Message : string;
  Type_ : string;
  Scope : string;
  Board : string;
  Description : string;
  ForceMajor : bool
}.

Definition set_Type (c : Commit) (v : string) : Commit :=
  mkCommit (Hash c) (Message c) v (Scope c) (Board c) (Description c) (ForceMajor c).
Definition set_Scope (c : Commit) (v : string) : Commit :=
  mkCommit (Hash c) (Message c) (Type_ c) v (Board c) (Description c) (ForceMajor c).
Definition set_Board (c : Commit) (v : string) : Commit :=
  mkCommit (Hash c) (Message c) (Type_ c) (Scope c) v (Description c) (ForceMajor c).
Definition set_Description (c : Commit) (v : string) : Commit :=
  mkCommit (Hash c) (Message c) (Type_ c) (Scope c) (Board c) v (ForceMajor c).
Definition set_ForceMajor (c : Commit) (v : bool) : Commit :=
  mkCommit (Hash c) (Message c) (Type_ c) (Scope c) (Board c) (Description c) v.

(** [[A-Z]+-\d+] *)
Definition board_id : regex := Plus is_upper ⋅ Lit "-" ⋅ Plus is_digit.

(** [\((?P<scope>[^)]+)\)] *)
Definition scope_part : regex := Lit "(" ⋅ Group "scope" (Plus (is_not ")")) ⋅ Lit ")".

(** Pattern 1: [J-123456(parser,regex): <Fix> syntax issue]
    [^(?P<board>[A-Z]+-\d+)(?:\((?P<scope>[^)]+)\))?: <(?P<type>[^>]+)>\s*(?P<desc>.+)$] *)
Definition pattern1 : Regexp :=
  MustCompile
    (Group "board" board_id ⋅ Opt scope_part ⋅ Lit ": <"
     ⋅ Group "type" (Plus (is_not ">")) ⋅ Lit ">" ⋅ Star is_perl_space
     ⋅ Group "desc" (Plus is_any)).

(** Pattern 2: [U-1234(config): Feature new section]
    [^(?P<board>[A-Z]+-\d+)\((?P<scope>[^)]+)\): (?P<type>\w+)\s+(?P<desc>.+)$] *)
Definition pattern2 : Regexp :=
  MustCompile
    (Group "board" board_id ⋅ scope_part ⋅ Lit ": "
     ⋅ Group "type" (Plus is_word) ⋅ Plus is_perl_space
     ⋅ Group "desc" (Plus is_any)).

(** Pattern 3: [U-1234: Tests added for parser]
    [^(?P<board>[A-Z]+-\d+): (?P<type>\w+)\s+(?P<desc>.+)$] *)
Definition pattern3 : Regexp :=
  MustCompile
    (Group "board" board_id ⋅ Lit ": "
     ⋅ Group "type" (Plus is_word) ⋅ Plus is_perl_space
     ⋅ Group "desc" (Plus is_any)).

(** Pattern 4: [Feature!(log): added logger]
    [^(?P<type>\w+)(?P<force>!)?(?:\((?P<scope>[^)]+)\))?: (?P<desc>.+)$] *)
Definition pattern4 : Regexp :=
  MustCompile
    (Group "type" (Plus is_word) ⋅ Opt (Group "force" (Lit "!"))
     ⋅ Opt scope_part ⋅ Lit ": " ⋅ Group "desc" (Plus is_any)).

(** All patterns in order of priority. *)
Definition patterns : list Regexp := [pattern1; pattern2; pattern3; pattern4].

(** The [switch name] of [Parse]. *)
Definition assign_group (name value : string) (commit : Commit) : Commit :=
  if String.eqb name "type" then set_Type commit (strings.TrimSpace value)
  else if String.eqb name "scope" then set_Scope commit value
  else if String.eqb name "board" then set_Board commit value
  else if String.eqb name "desc" then set_Description commit value
  else if String.eqb name "force" then
    (if String.eqb value "!" then set_ForceMajor commit true else commit)
  else commit.

(** The loop [for i, name := range names] over the groups of a match,
    with [value := matches[i]]. *)
Fixpoint assign_groups (i : nat) (names matches : list string) (commit : Commit)
  : Commit :=
  match names, matches with
  | name :: names', value :: matches' =>
      let commit' :=
        if (i =? 0)%nat || String.eqb name EmptyString then commit
        else assign_group name value commit in
      assign_groups (S i) names' matches' commit'
  | _, _ => commit
  end.

(** The loop [for _, pattern := range patterns]: [Some] is its [return]
    at the first pattern that matches. *)
Fixpoint match_patterns (ps : list Regexp) (message : string) (commit : Commit)
  : option Commit :=
  match ps with
  | [] => None
  | pattern :: rest =>
      match FindStringSubmatch pattern message with
      | Some matches =>
          Some (assign_groups 0 (SubexpNames pattern) matches commit)
      | None => match_patterns rest message commit
      end
  end.

(** The fallback of [Parse], which reads a type and a description off
    the first colon. *)
Definition fallback (message : string) (commit : Commit) : Commit :=
  match strings.SplitN message ":" 2 with
  | [part0; part1] =>
      let possibleType := strings.TrimSpace part0 in
      let forced := strings.HasSuffix possibleType "!" in
      let commit := if forced then set_ForceMajor commit true else commit in
      let possibleType :=
        if forced then strings.TrimSuffix possibleType "!" else possibleType in
      set_Description (set_Type commit possibleType) (strings.TrimSpace part1)
  | _ => commit
  end.

Definition Parse (message : string) : Commit * option error :=
  let commit := mkCommit "" message "" "" "" "" false in
  let message := strings.TrimSpace message in
  let commit :=
    if strings.Contains message "Breaking" || strings.Contains message "BREAKING"
    then set_ForceMajor commit true
    else commit in
  match match_patterns patterns message commit with
  | Some commit => (commit, None)
  | None => (fallback message commit, None)
  end.

Fixpoint ParseMultiple (messages : list string) : list Commit :=
  match messages with
  | [] => []
  | msg :: rest =>
      match Parse msg with
      | (commit, None) =>
          if negb (String.eqb (Type_ commit) "")
          then commit :: ParseMultiple rest
          else ParseMultiple rest
      | (_, Some _) => ParseMultiple rest
      end
  end.

Definition IsValidCommit (c : Commit) : bool := negb (String.eqb (Type_ c) "").

(** [(c *Commit) String()] *)
Definition String (c : Commit) : string :=
  let parts := [] in
  let parts := if negb (String.eqb (Board c) "") then parts ++ [Board c] else parts in
  let parts :=
    if negb (String.eqb (Type_ c) "") then
      let typeStr := Type_ c in
      let typeStr := if ForceMajor c then typeStr +:+ "!" else typeStr in
      parts ++ [typeStr]
    else parts in
  let parts :=
    if negb (String.eqb (Scope c) "") then parts ++ ["(" +:+ Scope c +:+ ")"]
    else parts in
  let parts :=
    if negb (String.eqb (Description c) "") then parts ++ [Description c]
    else parts in
  strings.Join parts " ".

End parser.

(** ** internal/version *)

Module version.

Import parser.

(** [type Calculator struct { config *config.Config }]: a calculator is
    its configuration. *)
Definition Calculator := Config.

Definition NewCalculator (cfg : Config) : Calculator := cfg.

(** The [precedence] table of [maxBump]; indexing a Go map with an absent
    key yields the zero value. *)
Definition precedence : gmap BumpType Z :=
  {[ BumpMajor := 3; BumpMinor := 2; BumpPatch := 1; BumpNone := 0 ]}.

Definition precedence_of (a : BumpType) : Z := default 0 (precedence !! a).

Definition maxBump (a b : BumpType) : BumpType :=
  if precedence_of a >? precedence_of b then a else b.

(** The loop [for _, commit := range commits] of [DetermineBump], [bump]
    being its accumulator; the [return] inside the loop ends it. *)
Fixpoint DetermineBump_loop (c : Calculator) (bump : BumpType)
    (commits : list Commit) : BumpType :=
  match commits with
  | [] => bump
  | commit :: rest =>
      if ForceMajor commit then BumpMajor
      else
        let commitBump := GetBumpType c (Type_ commit) in
        DetermineBump_loop c (maxBump bump commitBump) rest
  end.

Definition DetermineBump (c : Calculator) (commits : list Commit) : BumpType :=
  DetermineBump_loop c BumpNone commits.

Definition parseVersion (c : Calculator) (versionStr : string)
  : semver.Version + error :=
  let versionStr := strings.TrimPrefix versionStr "v" in
  semver.NewVersion versionStr.

Definition formatVersion (c : Calculator) (ver : semver.Version) : string :=
  let verStr := semver.String ver in
  if String.eqb (Format (Version c)) "v-prefix" then "v" +:+ verStr else verStr.

Definition Calculate (c : Calculator) (current : string) (commits : list Commit)
  : string * BumpType * option error :=
  match parseVersion c current with
  | inr err =>
      ("", BumpNone, Some (Errorf ("invalid current version " +:+ current +:+ ": ") err))
  | inl ver =>
      let bump := DetermineBump c commits in
      if String.eqb bump BumpMajor then
        (formatVersion c (semver.IncMajor ver), bump, None)
      else if String.eqb bump BumpMinor then
        (formatVersion c (semver.IncMinor ver), bump, None)
      else if String.eqb bump BumpPatch then
        (formatVersion c (semver.IncPatch ver), bump, None)
      else (current, BumpNone, None)
  end.

Definition IsValid (versionStr : string) : bool :=
  let versionStr := strings.TrimPrefix versionStr "v" in
  match semver.NewVersion versionStr with
  | inl _ => true
  | inr _ => false
  end.

Definition Compare (v1 v2 : string) : Z * option error :=
  match semver.NewVersion (strings.TrimPrefix v1 "v") with
  | inr err => (0, Some (Errorf "invalid version v1: " err))
  | inl ver1 =>
      match semver.NewVersion (strings.TrimPrefix v2 "v") with
      | inr err => (0, Some (Errorf "invalid version v2: " err))
      | inl ver2 => (semver.Compare ver1 ver2, None)
      end
  end.

End version.

(** ** internal/updater *)

Module updater.

(** [interface{}], with the dynamic values that [encoding/json] stores
    in one: [nil] for [null], a [bool], a [float64], a [string],
    a [[]interface{}] or a [map[string]interface{}]. *)
#[warnings="-register-all"]
Inductive any : Type :=
  | Nil
  | Bool (b : bool)
  | Number (f : spec_float)
  | Str (s : string)
  | Array (elems : list any)
  | Object (fields : gmap string any).

(** Indexing a map with an absent key yields the zero value of
    [interface{}], which is [nil]. *)
Definition index (data : gmap string any) (key : string) : any :=
  default Nil (data !! key).

Fixpoint getNestedValue (data : gmap string any) (keys : list string) : any :=
  match keys with
  | [] => Nil
  | key :: rest =>
      match rest with
      | [] => index data key
      | _ :: _ =>
          match index data key with
          | Object nested => getNestedValue nested rest
          | _ => Nil
          end
      end
  end.

(** [setNestedValue] writes into the map it is given, and a nested map
    is shared with the entry that holds it: the result is the map after
    the call, where the entry of a nested map holds the nested map
    after the recursive call, and the error, an error made by
    [fmt.Errorf] being its text. *)
Fixpoint setNestedValue (data : gmap string any) (keys : list string)
    (value : string) : gmap string any * option string :=
  match keys with
  | [] => (data, Some "empty key path")
  | key :: rest =>
      match rest with
      | [] => (<[key := Str value]> data, None)
      | _ :: _ =>
          let data :=
            match data !! key with
            | Some _ => data
            | None => <[key := Object ∅]> data
            end in
          match index data key with
          | Object nested =>
              let '(nested, err) := setNestedValue nested rest value in
              (<[key := Object nested]> data, err)
          | _ => (data, Some ("key '" +:+ key +:+ "' is not a map"))
          end
      end
  end.

(** [GetVersion] of both updaters, once [u.read()] has returned the
    document [data]. *)
Definition GetVersion (data : gmap string any) (keyPath : string)
  : string * option string :=
  let value := getNestedValue data (strings.Split keyPath ".") in
  match value with
  | Str str => (str, None)
  | _ =>
      ("", Some ("version key '" +:+ keyPath +:+ "' not found or not a string"))
  end.

(** [SetVersion] of both updaters, once [u.read()] has returned the
    document [data]: the document handed to [u.write], or the error
    returned before any write. *)
Definition SetVersion (data : gmap string any) (keyPath version : string)
  : gmap string any + string :=
  match setNestedValue data (strings.Split keyPath ".") version with
  | (_, Some err) => inr err
  | (data, None) => inl data
  end.

End updater.

(** ** internal/git *)

Module git.

Import regexp.
Local Open Scope regex_scope.

Record CommitInfo := mkCommitInfo {
  Hash : string;
  Message : string;
  Author : string;
  Date : string
}.

(** The default tag pattern [^v?([0-9]+\.[0-9]+\.[0-9]+)$] of
    [DefaultConfig], compiled.  Its one group has no name, which is the
    empty name of [SubexpNames]. *)
Definition default_tag_pattern : Regexp :=
  MustCompile
    (Opt (Lit "v")
     ⋅ Group "" (Plus is_digit ⋅ Lit "." ⋅ Plus is_digit ⋅ Lit "." ⋅ Plus is_digit)).

(** Go's [a > b] on strings, the order of their bytes. *)
Definition string_gt (a b : string) : Prop := String.ltb b a = true.

(** The order [sort.Slice] leaves the tags in: no tag is followed by a
    greater one. *)
Definition string_ge (a b : string) : Prop := String.leb b a = true.

#[global] Instance string_ge_dec a b : Decision (string_ge a b).
Proof. unfold string_ge. apply _. Defined.

(** [GetLatestTag], given the names [c.repo.Tags()] iterates over (or
    its error) and the outcome of [regexp.Compile] on the tag pattern
    of the configuration; an error is its message. *)
Definition GetLatestTag (tags : list string + string) (pattern : Regexp + string)
  : string * option string :=
  match tags with
  | inr err => ("", Some ("failed to get tags: " +:+ err))
  | inl tagNames =>
      match pattern with
      | inr err => ("", Some ("invalid tag pattern: " +:+ err))
      | inl pattern =>
          let matchingTags := List.filter (MatchString pattern) tagNames in
          if (length matchingTags =? 0)%nat then ("", None)
          else
            let matchingTags := merge_sort string_ge matchingTags in
            (default "" (head matchingTags), None)
      end
  end.

(** [ExtractVersionFromTag], given the outcome of [regexp.Compile] on
    the tag pattern of the configuration. *)
Definition ExtractVersionFromTag (pattern : Regexp + string) (tag : string)
  : string * option string :=
  match pattern with
  | inr err => ("", Some ("invalid tag pattern: " +:+ err))
  | inl pattern =>
      match FindStringSubmatch pattern tag with
      | Some (_ :: version :: _) => (version, None)
      | _ => ("", Some "tag does not match pattern")
      end
  end.

End git.

(** ** cmd/commet *)

Module main.

(** [truncate]; [None] is the run-time panic of a slice expression
    whose bound is out of range. *)
Definition truncate (s : string) (max : Z) : option string :=
  if Z.of_nat (String.length s) <=? max then Some s
  else if (0 <=? max - 3) && (max - 3 <=? Z.of_nat (String.length s))
  then Some (strings.slice_to (Z.to_nat (max - 3)) s +:+ "...")
  else None.

Definition set_Hash (c : parser.Commit) (v : string) : parser.Commit :=
  parser.mkCommit v (parser.Message c) (parser.Type_ c) (parser.Scope c)
    (parser.Board c) (parser.Description c) (parser.ForceMajor c).

(** The loop of [run] that parses the commits: the records that are
    valid, each with the hash of its commit. *)
Fixpoint parsedCommits (commits : list git.CommitInfo) : list parser.Commit :=
  match commits with
  | [] => []
  | c :: rest =>
      match parser.Parse (git.Message c) with
      | (_, Some _) => parsedCommits rest
      | (parsed, None) =>
          if negb (parser.IsValidCommit parsed) then parsedCommits rest
          else set_Hash parsed (git.Hash c) :: parsedCommits rest
      end
  end.

(** What [run] decides once it has the current version and the
    commits: each way it returns before touching a file, or the bump
    it goes on to write. *)
Inductive decision : Type :=
  | NoCommits
  | NoValidCommits
  | Failed (err : error)
  | NoBump
  | Bump (newVersion : string) (bumpType : BumpType).

(** [run], from the test [len(commits) == 0] to the test
    [bumpType == config.BumpNone]; what it prints is left out. *)
Definition run (cfg : Config) (currentVersion : string)
    (commits : list git.CommitInfo) : decision :=
  if (length commits =? 0)%nat then NoCommits
  else
    let parsedCommits := parsedCommits commits in
    if (length parsedCommits =? 0)%nat then NoValidCommits
    else
      let calculator := version.NewCalculator cfg in
      match version.Calculate calculator currentVersion parsedCommits with
      | (_, _, Some err) => Failed (Errorf "failed to calculate version: " err)
      | (newVersion, bumpType, None) =>
          if String.eqb bumpType BumpNone then NoBump
          else Bump newVersion bumpType
      end.

(** The texts [run] builds from the new version for the commit and
    the tag it creates. *)
Definition commitMsg (cfg : Settings) (newVersion : string) : string :=
  strings.ReplaceAll (CommitMessage (Git cfg)) "{version}" newVersion.

Definition tagName (cfg : Settings) (newVersion : string) : string :=
  strings.ReplaceAll (TagFormat (Git cfg)) "{version}" newVersion.

Definition tagMsg (cfg : Settings) (newVersion : string) : string :=
  strings.ReplaceAll (TagMessage (Git cfg)) "{version}" newVersion.

End main.

(** ** Notions used to state the properties *)

(** *** Bump kinds and rule tables *)



(** No commit of the list carries the force-major flag. *)
Definition no_force (commits : list parser.Commit) : Prop :=
  Forall (λ x, parser.ForceMajor x = false) commits.

(** The bump the rule table gives to a commit. *)
Definition commit_bump (c : Config) (commit : parser.Commit) : BumpType :=
  GetBumpType c (parser.Type_ commit).

(** The largest precedence among the bumps of the commits. *)
Definition max_precedence (c : Config) (commits : list parser.Commit) : Z :=
  foldr (λ x acc, Z.max (version.precedence_of (commit_bump c x)) acc) 0 commits.

(** Commits used as examples: only the type and the flag matter to the
    bump resolver. *)
Definition example_commit (ty : string) (force : bool) : parser.Commit :=
  parser.mkCommit "" "" ty "" "" "" force.

(** *** Versions *)

(** A non-negative decimal integer: a non-empty run of digits. *)
Definition is_number (s : string) : Prop :=
  s ≠ "" ∧ all_bytes is_digit s = true.

(** "A well-formed non-negative dotted-integer version (1-3
    components)": one to three numbers joined by dots. *)
Definition dotted_version (s : string) : Prop :=
  ∃ comps : list string,
    (1 ≤ length comps ≤ 3)%nat ∧ Forall is_number comps
    ∧ s = strings.Join comps ".".

(** The error [Calculate] returns for a version it cannot parse: the
    parse error of the semver package, wrapped with the offending text. *)
Definition invalid_version_error (current : string) : error :=
  Errorf ("invalid current version " +:+ current +:+ ": ") ErrInvalidSemVer.

(** "MAJOR.MINOR.PATCH, prefixed with v iff the format is v-prefix". *)
Definition render (format : string) (major minor patch : N) : string :=
  (if String.eqb format "v-prefix" then "v" else "")
  +:+ semver.decimal major +:+ "." +:+ semver.decimal minor
  +:+ "." +:+ semver.decimal patch.

(** *** Bytes and space runes *)

(** Bytes of the ASCII range, and bytes outside it. *)
Definition is_ascii (c : ascii) : bool := (N_of_ascii c <? 128)%N.
Definition is_high (c : ascii) : bool := (128 <=? N_of_ascii c)%N.

(** The bytes that occur in the encoding of some space rune lie among
    the ASCII spaces and the bytes outside ASCII. *)
Definition space_byte (c : ascii) : bool := strings.space1 c || is_high c.

(** The first byte of the two- and three-byte space runes. *)
Definition is_lead (c : ascii) : bool :=
  let n := N_of_ascii c in
  ((n =? 194) || (n =? 225) || (n =? 226) || (n =? 227))%N.

(** The text starts with a space rune. *)
Definition starts_with_space (s : string) : bool :=
  match s with
  | String c1 r1 =>
      strings.space1 c1
      || match r1 with
         | String c2 r2 =>
             strings.space2 c1 c2
             || match r2 with
                | String c3 _ => strings.space3 c1 c2 c3
                | EmptyString => false
                end
         | EmptyString => false
         end
  | EmptyString => false
  end.

(** The last byte of a non-empty string satisfies [p]. *)
Fixpoint last_byte (p : ascii → bool) (w : string) : bool :=
  match w with
  | EmptyString => false
  | String c EmptyString => p c
  | String _ w' => last_byte p w'
  end.

(** A word that starts and ends with bytes that belong to no space
    rune: trimming cannot cut into an occurrence of it. *)
Definition solid (w : string) : bool :=
  match w with
  | EmptyString => false
  | String c _ => negb (space_byte c) && last_byte (λ c, negb (space_byte c)) w
  end.

(** *** The language of a pattern *)

(** The texts a regex matches, with the captures before and after: the
    language of the regex, without the order in which a matcher tries
    the alternatives. *)
Inductive matches : regexp.regex → string → regexp.captures → regexp.captures → Prop :=
  | matches_Lit w caps :
      matches (regexp.Lit w) w caps caps
  | matches_Plus p w caps :
      w ≠ "" → all_bytes p w = true → matches (regexp.Plus p) w caps caps
  | matches_Star p w caps :
      all_bytes p w = true → matches (regexp.Star p) w caps caps
  | matches_Seq r1 r2 w1 w2 caps0 caps1 caps2 :
      matches r1 w1 caps0 caps1 → matches r2 w2 caps1 caps2 →
      matches (regexp.Seq r1 r2) (w1 +:+ w2) caps0 caps2
  | matches_Opt_some r w caps0 caps1 :
      matches r w caps0 caps1 → matches (regexp.Opt r) w caps0 caps1
  | matches_Opt_none r caps :
      matches (regexp.Opt r) "" caps caps
  | matches_Group name r w caps0 caps1 :
      matches r w caps0 caps1 →
      matches (regexp.Group name r) w caps0 (<[name := w]> caps1).

(** *** Commit messages *)

(** The record [Parse] starts from: the raw message kept, and the flag
    set by the scan of the trimmed message for "Breaking" and
    "BREAKING". *)
Definition breaking_scan (message : string) : bool :=
  strings.Contains (strings.TrimSpace message) "Breaking"
  || strings.Contains (strings.TrimSpace message) "BREAKING".

Definition scanned (message : string) : parser.Commit :=
  parser.mkCommit "" message "" "" "" "" (breaking_scan message).

(** A well-formed input [TYPE(SCOPE): DESC]: the type is a word, the
    scope is non-empty and holds no closing parenthesis, the description
    holds no newline and does not consist of spaces only. *)
Definition well_formed_input (ty sc de : string) : Prop :=
  ty ≠ "" ∧ all_bytes is_word ty = true
  ∧ sc ≠ "" ∧ all_bytes (is_not ")") sc = true
  ∧ all_bytes is_any de = true ∧ strings.TrimRightSpace de ≠ "".

(** *** The tables of the repository's tests *)

(** The fields [TestParse] compares. *)
Definition parsed_fields (message : string)
  : string * string * string * string * bool :=
  let commit := (parser.Parse message).1 in
  (parser.Type_ commit, parser.Scope commit, parser.Board commit,
   parser.Description commit, parser.ForceMajor commit).

(** The configuration of [TestCalculate]. *)
Definition test_config (format : string) : Config :=
  mkConfig (mkVersionConfig "" "" "" format)
    {[ "Fix" := BumpPatch; "Feature" := BumpMinor; "Refactor" := BumpPatch;
       "Breaking" := BumpMajor; "Docs" := BumpNone ]}.

(** * Part II: properties *)

(** ** The bump resolver *)

Section bump_resolver.
Import parser version.

Lemma precedence_of_unfold a :
  precedence_of a =
    if decide (a = BumpMajor) then 3
    else if decide (a = BumpMinor) then 2
    else if decide (a = BumpPatch) then 1
    else 0.
Proof.
  unfold precedence_of, precedence.
  repeat case_decide; subst; simplify_map_eq; try reflexivity.
  destruct (decide (a = BumpNone)) as [->|Hn]; by simplify_map_eq.
Qed.

Lemma precedence_of_range a : 0 ≤ precedence_of a ≤ 3.
Proof. rewrite precedence_of_unfold. repeat case_decide; lia. Qed.

(** On the four kinds the precedence is the position in
    [none < patch < minor < major]. *)
Lemma precedence_of_kinds :
  precedence_of BumpNone = 0 ∧ precedence_of BumpPatch = 1
  ∧ precedence_of BumpMinor = 2 ∧ precedence_of BumpMajor = 3.
Proof. by vm_compute. Qed.


Lemma maxBump_precedence a b :
  precedence_of (maxBump a b) = Z.max (precedence_of a) (precedence_of b).
Proof.
  unfold maxBump.
  destruct (Z.gtb_spec (precedence_of a) (precedence_of b)); lia.
Qed.

Lemma maxBump_cases a b : maxBump a b = a ∨ maxBump a b = b.
Proof. unfold maxBump. destruct (_ >? _); auto. Qed.

Lemma maxBump_none b : maxBump BumpNone b = b.
Proof.
  unfold maxBump. pose proof (precedence_of_range b).
  destruct (Z.gtb_spec (precedence_of BumpNone) (precedence_of b)) as [H1|H1];
    [|reflexivity].
  exfalso. change (precedence_of BumpNone) with 0 in H1. lia.
Qed.

Lemma loop_forced c bump pre commit post :
  no_force pre → ForceMajor commit = true →
  DetermineBump_loop c bump (pre ++ commit :: post) = BumpMajor.
Proof.
  intros Hpre Hc. revert bump.
  induction Hpre as [|x pre Hx _ IH]; intros bump; simpl.
  - by rewrite Hc.
  - rewrite Hx. apply IH.
Qed.

Lemma loop_precedence c bump commits :
  no_force commits →
  precedence_of (DetermineBump_loop c bump commits)
  = Z.max (precedence_of bump) (max_precedence c commits).
Proof.
  intros Hnf. revert bump.
  induction Hnf as [|x l Hx _ IH]; intros bump; simpl.
  - pose proof (precedence_of_range bump). lia.
  - rewrite Hx, IH, maxBump_precedence. unfold commit_bump. lia.
Qed.

Lemma loop_attained c bump commits :
  no_force commits →
  DetermineBump_loop c bump commits = bump
  ∨ ∃ commit, commit ∈ commits
              ∧ DetermineBump_loop c bump commits = commit_bump c commit.
Proof.
  intros Hnf. revert bump.
  induction Hnf as [|x l Hx _ IH]; intros bump; simpl; [by left|].
  rewrite Hx.
  destruct (IH (maxBump bump (GetBumpType c (Type_ x)))) as [->|(y & Hy & ->)].
  - destruct (maxBump_cases bump (GetBumpType c (Type_ x))) as [->| ->];
      [by left|].
    right. exists x. split; [left|done].
  - right. exists y. split; [by right|done].
Qed.

Lemma max_precedence_upper c commits commit :
  commit ∈ commits →
  precedence_of (commit_bump c commit) ≤ max_precedence c commits.
Proof.
  induction 1 as [x l|x y l _ IH]; simpl; lia.
Qed.





(** C1: [DetermineBump] answers [major] at the first commit that carries
    the force-major flag, whatever follows it; without such a commit
    its answer is the greatest bump, for [none < patch < minor < major],
    that the rule table gives to a commit of the list, a type absent
    from the table counting as [none]; on the empty list it is [none]. *)
Theorem DetermineBump_spec (c : Config) (commits : list Commit) :
  (∀ pre commit post,
      commits = pre ++ commit :: post →
      no_force pre → ForceMajor commit = true →
      ∀ post', DetermineBump c (pre ++ commit :: post') = BumpMajor)
  ∧ (no_force commits →
       (∀ commit, commit ∈ commits →
          precedence_of (commit_bump c commit)
          ≤ precedence_of (DetermineBump c commits))
       ∧ (commits ≠ [] →
          ∃ commit, commit ∈ commits
                    ∧ DetermineBump c commits = commit_bump c commit))
  ∧ (∀ commit, BumpRules c !! Type_ commit = None →
       commit_bump c commit = BumpNone)
  ∧ DetermineBump c [] = BumpNone
  ∧ precedence_of BumpNone < precedence_of BumpPatch
    < precedence_of BumpMinor
  ∧ precedence_of BumpMinor < precedence_of BumpMajor.
Proof.
  split; [|split; [|split; [|split; [reflexivity|by vm_compute]]]].
  - intros pre commit post _ Hpre Hc post'. by apply loop_forced.
  - intros Hnf. split.
    + intros commit Hin. unfold DetermineBump.
      rewrite loop_precedence by done.
      pose proof (max_precedence_upper c commits commit Hin). lia.
    + intros Hne. unfold DetermineBump.
      destruct commits as [|x l]; [done|]. simpl.
      inversion Hnf as [|? ? Hx Hl]; subst. rewrite Hx, maxBump_none.
      destruct (loop_attained c (GetBumpType c (Type_ x)) l Hl)
        as [->|(y & Hy & ->)].
      * exists x. split; [left|done].
      * exists y. split; [by right|done].
  - intros commit Hnone. unfold commit_bump, GetBumpType. by rewrite Hnone.
Qed.




End bump_resolver.

(** ** Byte strings *)

Section string_facts.

Lemma sapp_nil_l (s : string) : "" +:+ s = s.
Proof. reflexivity. Qed.

Lemma sapp_cons c (s t : string) : String c s +:+ t = String c (s +:+ t).
Proof. reflexivity. Qed.

Lemma sapp_nil_r (s : string) : s +:+ "" = s.
Proof. induction s as [|c s IH]; [done|]. by rewrite sapp_cons, IH. Qed.

Lemma sapp_assoc (s t u : string) : (s +:+ t) +:+ u = s +:+ t +:+ u.
Proof. induction s as [|c s IH]; [done|]. by rewrite !sapp_cons, IH. Qed.

Lemma sapp_length (s t : string) :
  String.length (s +:+ t) = (String.length s + String.length t)%nat.
Proof. induction s as [|c s IH]; [done|]. rewrite sapp_cons. simpl. lia. Qed.

Lemma sapp_eq_nil (s t : string) : s +:+ t = "" → s = "" ∧ t = "".
Proof. destruct s; [done|]. by rewrite sapp_cons. Qed.

Lemma byte_eq_true a b : byte_eq a b = true ↔ a = b.
Proof. unfold byte_eq. by destruct (Ascii.eqb_spec a b). Qed.

Lemma byte_eq_refl a : byte_eq a a = true.
Proof. by apply byte_eq_true. Qed.

Lemma all_bytes_app p (s t : string) :
  all_bytes p (s +:+ t) = all_bytes p s && all_bytes p t.
Proof.
  induction s as [|c s IH]; [done|].
  rewrite sapp_cons. simpl. rewrite IH. by destruct (p c).
Qed.

Lemma all_bytes_impl (p q : ascii → bool) s :
  (∀ c, p c = true → q c = true) → all_bytes p s = true → all_bytes q s = true.
Proof.
  intros Hpq. induction s as [|c s IH]; [done|]. simpl.
  intros [Hc Hs]%andb_true_iff. by rewrite (Hpq c Hc), IH.
Qed.

Lemma all_bytes_app_true p (s t : string) :
  all_bytes p (s +:+ t) = true ↔ all_bytes p s = true ∧ all_bytes p t = true.
Proof. by rewrite all_bytes_app, andb_true_iff. Qed.

(** *** Prefixes and slices *)

Lemma HasPrefix_app (w b : string) : strings.HasPrefix (w +:+ b) w = true.
Proof.
  induction w as [|c w IH]; [done|].
  rewrite sapp_cons. simpl. by rewrite byte_eq_refl, IH.
Qed.

Lemma slice_from_app (w b : string) :
  strings.slice_from (String.length w) (w +:+ b) = b.
Proof. induction w as [|c w IH]; [by destruct b|]. by rewrite sapp_cons. Qed.

Lemma HasPrefix_split (s w : string) :
  strings.HasPrefix s w = true →
  s = w +:+ strings.slice_from (String.length w) s.
Proof.
  revert s. induction w as [|c w IH]; intros s; [by destruct s|].
  destruct s as [|d s]; [done|]. simpl.
  intros [Hd Hs]%andb_true_iff. apply byte_eq_true in Hd as ->.
  rewrite sapp_cons. f_equal. by apply IH.
Qed.

Lemma HasPrefix_true (s w : string) :
  strings.HasPrefix s w = true ↔ ∃ b, s = w +:+ b.
Proof.
  split; [intros H; eexists; by apply HasPrefix_split|].
  intros [b ->]. apply HasPrefix_app.
Qed.

Lemma slice_to_app (a b : string) :
  strings.slice_to (String.length a) (a +:+ b) = a.
Proof.
  unfold strings.slice_to.
  induction a as [|c a IH]; [by destruct b|].
  rewrite sapp_cons. simpl. by rewrite IH.
Qed.

Lemma slice_from_length (a : string) :
  strings.slice_from (String.length a) a = "".
Proof. rewrite <- (sapp_nil_r a) at 2. apply slice_from_app. Qed.

Lemma slice_split (n : nat) (s : string) :
  s = strings.slice_to n s +:+ strings.slice_from n s.
Proof.
  unfold strings.slice_to. revert s.
  induction n as [|n IH]; intros [|c s]; try done.
  simpl. rewrite sapp_cons. f_equal. apply IH.
Qed.

Lemma slice_from_length_le (n : nat) (s : string) :
  (n ≤ String.length s)%nat →
  String.length (strings.slice_from n s) = (String.length s - n)%nat.
Proof.
  revert s. induction n as [|n IH]; intros [|c s]; simpl; try lia.
  intros Hn. apply IH. lia.
Qed.

(** *** Suffixes *)

Lemma HasSuffix_app (a w : string) : strings.HasSuffix (a +:+ w) w = true.
Proof.
  unfold strings.HasSuffix. rewrite sapp_length.
  replace (String.length a + String.length w - String.length w)%nat
    with (String.length a) by lia.
  rewrite slice_from_app.
  apply andb_true_iff. split; [apply Nat.leb_le; lia|apply String.eqb_refl].
Qed.

Lemma HasSuffix_true (s w : string) :
  strings.HasSuffix s w = true ↔ ∃ a, s = a +:+ w.
Proof.
  split; [|intros [a ->]; apply HasSuffix_app].
  unfold strings.HasSuffix. intros [Hlen Heq]%andb_true_iff.
  apply String.eqb_eq in Heq.
  exists (strings.slice_to (String.length s - String.length w) s).
  rewrite (slice_split (String.length s - String.length w) s) at 1.
  by rewrite Heq.
Qed.

Lemma TrimSuffix_app (a w : string) : strings.TrimSuffix (a +:+ w) w = a.
Proof.
  unfold strings.TrimSuffix. rewrite HasSuffix_app, sapp_length.
  replace (String.length a + String.length w - String.length w)%nat
    with (String.length a) by lia.
  apply slice_to_app.
Qed.

(** *** Substrings *)

Lemma Contains_unfold (s w : string) :
  strings.Contains s w
  = strings.HasPrefix s w
    || match s with
       | EmptyString => false
       | String _ s' => strings.Contains s' w
       end.
Proof. by destruct s. Qed.

Lemma Contains_true (s w : string) :
  strings.Contains s w = true ↔ ∃ a b, s = a +:+ w +:+ b.
Proof.
  split.
  - induction s as [|c s IH]; rewrite Contains_unfold;
      intros [H|H]%orb_true_iff; try done.
    + apply HasPrefix_true in H as [b ->]. by exists "", b.
    + apply HasPrefix_true in H as [b ->]. by exists "", b.
    + destruct (IH H) as (a & b & ->). by exists (String c a), b.
  - intros (a & b & ->). induction a as [|c a IH]; rewrite Contains_unfold.
    + by rewrite sapp_nil_l, HasPrefix_app.
    + rewrite sapp_cons, IH. apply orb_true_r.
Qed.

Lemma Contains_false_app (a b w : string) :
  strings.Contains (a +:+ b) w = false →
  strings.Contains a w = false ∧ strings.Contains b w = false.
Proof.
  intros H. split.
  - destruct (strings.Contains a w) eqn:Ha; [|done].
    apply Contains_true in Ha as (x & y & ->).
    rewrite <- H. symmetry. apply Contains_true.
    exists x, (y +:+ b). by rewrite !sapp_assoc.
  - destruct (strings.Contains b w) eqn:Hb; [|done].
    apply Contains_true in Hb as (x & y & ->).
    rewrite <- H. symmetry. apply Contains_true.
    exists (a +:+ x), y. by rewrite !sapp_assoc.
Qed.

(** A string holds the one-byte string [x] iff one of its bytes is [x]. *)
Lemma Contains_byte (s : string) (x : ascii) :
  strings.Contains s (String x "") = negb (all_bytes (is_not x) s).
Proof.
  induction s as [|c s IH]; [done|].
  rewrite Contains_unfold, IH. simpl. unfold is_not at 2.
  by destruct (byte_eq c x).
Qed.

(** *** [Cut] and [SplitN] at a one-byte separator *)

Lemma Cut_unfold (s sep : string) :
  strings.Cut s sep
  = if strings.HasPrefix s sep
    then Some ("", strings.slice_from (String.length sep) s)
    else match s with
         | EmptyString => None
         | String c s' =>
             match strings.Cut s' sep with
             | Some (before, after) => Some (String c before, after)
             | None => None
             end
         end.
Proof. by destruct s. Qed.

Lemma Cut_byte_Some (s : string) (x : ascii) before after :
  strings.Cut s (String x "") = Some (before, after) ↔
  s = before +:+ String x after ∧ all_bytes (is_not x) before = true.
Proof.
  revert before. induction s as [|c s IH]; intros before.
  - split; [done|]. intros [H _]. by destruct before.
  - rewrite Cut_unfold. simpl strings.HasPrefix. rewrite andb_true_r.
    destruct (byte_eq c x) eqn:Hc.
    + apply byte_eq_true in Hc as ->. simpl. split.
      * intros [= <- <-]; done.
      * intros [H Hb]. destruct before as [|d before].
        -- rewrite sapp_nil_l in H. by injection H as <-.
        -- rewrite sapp_cons in H. injection H as <- _. simpl in Hb.
           unfold is_not in Hb. by rewrite byte_eq_refl in Hb.
    + destruct (strings.Cut s (String x "")) as [[b a]|] eqn:Hcut.
      * split.
        -- intros [= <- <-]. destruct (proj1 (IH b) eq_refl) as [-> Hb].
           rewrite sapp_cons. simpl. unfold is_not at 1. by rewrite Hc.
        -- intros [H Hb]. destruct before as [|d before].
           ++ rewrite sapp_nil_l in H. injection H as -> _.
              by rewrite byte_eq_refl in Hc.
           ++ rewrite sapp_cons in H. injection H as <- H. simpl in Hb.
              apply andb_true_iff in Hb as [_ Hb].
              assert (Some (b, a) = Some (before, after)) as [= -> ->];
                [|done].
              by apply IH.
      * split; [done|]. intros [H Hb]. destruct before as [|d before].
        -- rewrite sapp_nil_l in H. injection H as -> _.
           by rewrite byte_eq_refl in Hc.
        -- rewrite sapp_cons in H. injection H as <- H. simpl in Hb.
           apply andb_true_iff in Hb as [_ Hb].
           assert (None = Some (before, after)); [|done].
           by apply IH.
Qed.

Lemma Cut_byte_None (s : string) (x : ascii) :
  strings.Cut s (String x "") = None ↔ all_bytes (is_not x) s = true.
Proof.
  induction s as [|c s IH]; [done|].
  rewrite Cut_unfold. simpl strings.HasPrefix. rewrite andb_true_r.
  simpl. unfold is_not at 1.
  destruct (byte_eq c x); [done|]. simpl.
  rewrite <- IH. by destruct (strings.Cut s (String x "")) as [[? ?]|].
Qed.
End string_facts.

(** ** [TrimSpace] *)

Section trim_space.
Import strings.

Lemma string_length_ind (P : string → Prop) :
  (∀ s, (∀ t, (String.length t < String.length s)%nat → P t) → P s) →
  ∀ s, P s.
Proof.
  intros Hstep s.
  remember (String.length s) as n eqn:Hn. revert s Hn.
  induction (lt_wf n) as [n _ IH]. intros s ->.
  apply Hstep. intros t Ht. by eapply IH.
Qed.

Lemma space2_high c1 c2 :
  space2 c1 c2 = true → is_high c1 = true ∧ is_high c2 = true.
Proof.
  unfold space2, is_high.
  rewrite andb_true_iff, orb_true_iff, !N.eqb_eq, !N.leb_le. lia.
Qed.

Lemma space3_high c1 c2 c3 :
  space3 c1 c2 c3 = true →
  is_high c1 = true ∧ is_high c2 = true ∧ is_high c3 = true.
Proof.
  unfold space3, is_high.
  rewrite !orb_true_iff, !andb_true_iff, !orb_true_iff, !andb_true_iff,
    !N.eqb_eq, !N.leb_le.
  lia.
Qed.

Lemma space1_ascii c : space1 c = true → is_ascii c = true.
Proof.
  unfold space1, is_ascii.
  rewrite orb_true_iff, andb_true_iff, N.eqb_eq, !N.leb_le, N.ltb_lt. lia.
Qed.

Lemma ascii_not_high c : is_ascii c = true → is_high c = false.
Proof.
  unfold is_ascii, is_high. rewrite N.ltb_lt, N.leb_gt. lia.
Qed.

(** A space rune is one ASCII space or a run of bytes outside ASCII. *)
Lemma is_space_rune_bytes t :
  is_space_rune t = true →
  (∃ c, t = String c "" ∧ space1 c = true) ∨ all_bytes is_high t = true.
Proof.
  destruct t as [|c1 [|c2 [|c3 [|c4 t]]]]; simpl; try done.
  - intros H. left. by exists c1.
  - intros (-> & ->)%space2_high. by right.
  - intros (-> & -> & ->)%space3_high. by right.
Qed.

Lemma is_space_rune_space_bytes t :
  is_space_rune t = true → all_bytes space_byte t = true.
Proof.
  intros [(c & -> & Hc)|H]%is_space_rune_bytes.
  - simpl. unfold space_byte. by rewrite Hc.
  - eapply all_bytes_impl; [|exact H].
    intros c Hc. unfold space_byte. rewrite Hc. apply orb_true_r.
Qed.

(** A string of two bytes or more that holds an ASCII byte is not a
    space rune. *)
Lemma not_space_rune_ascii (x y : string) c :
  is_ascii c = true → x +:+ y ≠ "" →
  is_space_rune (x +:+ String c y) = false.
Proof.
  intros Hc Hne.
  destruct (is_space_rune _) eqn:Hr; [exfalso|done].
  apply is_space_rune_bytes in Hr as [(d & Hd & _)|Hr].
  - destruct x as [|e x]; [|destruct x; by rewrite !sapp_cons in Hd].
    rewrite sapp_nil_l in *. by injection Hd as -> ->.
  - apply all_bytes_app_true in Hr as [_ Hr]. simpl in Hr.
    by rewrite (ascii_not_high c Hc) in Hr.
Qed.

(** *** Trimming on the right *)

Lemma TrimRightSpace_cons c s :
  TrimRightSpace (String c s)
  = if is_space_rune (String c (TrimRightSpace s)) then ""
    else String c (TrimRightSpace s).
Proof. reflexivity. Qed.

(** What is cut off on the right consists of bytes of space runes. *)
Lemma TrimRightSpace_split s :
  ∃ trail, s = TrimRightSpace s +:+ trail ∧ all_bytes space_byte trail = true.
Proof.
  induction s as [|c s (trail & Hs & Htrail)]; [by exists ""|].
  rewrite TrimRightSpace_cons.
  destruct (is_space_rune _) eqn:Hr.
  - exists (String c (TrimRightSpace s) +:+ trail).
    split; [by rewrite sapp_nil_l, sapp_cons, <- Hs|].
    by rewrite all_bytes_app, Htrail, (is_space_rune_space_bytes _ Hr).
  - exists trail. by rewrite sapp_cons, <- Hs.
Qed.

(** A trailing part that trims to nothing does not matter. *)
Lemma TrimRightSpace_app_trail x trail :
  TrimRightSpace trail = "" → TrimRightSpace (x +:+ trail) = TrimRightSpace x.
Proof.
  intros Htrail. induction x as [|c x IH]; [done|].
  by rewrite sapp_cons, !TrimRightSpace_cons, IH.
Qed.

(** Text that ends with an ASCII byte and is followed by text that
    does not trim to nothing is kept whole. *)
Lemma TrimRightSpace_app_ascii x c d :
  is_ascii c = true → TrimRightSpace d ≠ "" →
  TrimRightSpace ((x +:+ String c "") +:+ d)
  = (x +:+ String c "") +:+ TrimRightSpace d.
Proof.
  intros Hc Hd. induction x as [|e x IH].
  - rewrite sapp_nil_l, sapp_cons, sapp_nil_l, TrimRightSpace_cons.
    assert (is_space_rune (String c (TrimRightSpace d)) = false) as ->; [|done].
    apply (not_space_rune_ascii "" (TrimRightSpace d) c Hc).
    by rewrite sapp_nil_l.
  - rewrite !sapp_cons, TrimRightSpace_cons, IH.
    assert (is_space_rune (String e ((x +:+ String c "") +:+ TrimRightSpace d))
            = false) as ->; [|done].
    rewrite sapp_assoc, sapp_cons, sapp_nil_l, <- sapp_cons.
    by apply not_space_rune_ascii.
Qed.

(** Text that ends with an ASCII byte other than a space is kept. *)
Lemma TrimRightSpace_ascii_last x c :
  is_ascii c = true → space1 c = false →
  TrimRightSpace (x +:+ String c "") = x +:+ String c "".
Proof.
  intros Hc Hs. induction x as [|e x IH].
  - rewrite sapp_nil_l, TrimRightSpace_cons. simpl. by rewrite Hs.
  - rewrite sapp_cons, TrimRightSpace_cons, IH, <- sapp_cons.
    by rewrite (not_space_rune_ascii (String e x) "" c).
Qed.

(** An ASCII byte that is not a space stops the trimming. *)
Lemma TrimRightSpace_at_byte a c b :
  is_ascii c = true → space1 c = false →
  TrimRightSpace (a +:+ String c b) = a +:+ String c (TrimRightSpace b).
Proof.
  intros Hc Hs.
  replace (a +:+ String c b) with ((a +:+ String c "") +:+ b)
    by (by rewrite sapp_assoc).
  destruct (TrimRightSpace b) as [|e b'] eqn:Hb.
  - rewrite TrimRightSpace_app_trail by done.
    by apply TrimRightSpace_ascii_last.
  - rewrite TrimRightSpace_app_ascii, Hb; [|done|by rewrite Hb].
    by rewrite sapp_assoc.
Qed.

(** *** Trimming on the left *)

Lemma TrimLeftSpace_unfold s :
  TrimLeftSpace s
  = match s with
    | EmptyString => EmptyString
    | String c1 r1 =>
        if space1 c1 then TrimLeftSpace r1
        else match r1 with
             | EmptyString => s
             | String c2 r2 =>
                 if space2 c1 c2 then TrimLeftSpace r2
                 else match r2 with
                      | EmptyString => s
                      | String c3 r3 =>
                          if space3 c1 c2 c3 then TrimLeftSpace r3 else s
                      end
             end
    end.
Proof. by destruct s. Qed.

Lemma space_byte_false c :
  space_byte c = false → space1 c = false ∧ is_high c = false.
Proof. unfold space_byte. by intros [? ?]%orb_false_iff. Qed.

Lemma space2_low_l c1 c2 : is_high c1 = false → space2 c1 c2 = false.
Proof.
  intros H. destruct (space2 c1 c2) eqn:Hs; [|done].
  apply space2_high in Hs as [? ?]. congruence.
Qed.

Lemma space2_low_r c1 c2 : is_high c2 = false → space2 c1 c2 = false.
Proof.
  intros H. destruct (space2 c1 c2) eqn:Hs; [|done].
  apply space2_high in Hs as [? ?]. congruence.
Qed.

Lemma space3_low c1 c2 c3 :
  is_high c1 = false ∨ is_high c2 = false ∨ is_high c3 = false →
  space3 c1 c2 c3 = false.
Proof.
  intros H. destruct (space3 c1 c2 c3) eqn:Hs; [|done].
  apply space3_high in Hs as (? & ? & ?). destruct H as [?|[?|?]]; congruence.
Qed.

(** A byte that belongs to no space rune stops the trimming. *)
Lemma TrimLeftSpace_head c r :
  space_byte c = false → TrimLeftSpace (String c r) = String c r.
Proof.
  intros [Hs Hh]%space_byte_false. rewrite TrimLeftSpace_unfold, Hs.
  destruct r as [|c2 [|c3 r]]; [done| |];
    rewrite (space2_low_l c c2 Hh); [done|].
  by rewrite (space3_low c c2 c3) by auto.
Qed.

(** What is cut off on the left consists of bytes of space runes. *)
Lemma TrimLeftSpace_split s :
  ∃ lead, s = lead +:+ TrimLeftSpace s ∧ all_bytes space_byte lead = true.
Proof.
  induction s as [s IH] using string_length_ind.
  rewrite TrimLeftSpace_unfold.
  destruct s as [|c1 r1]; [by exists ""|].
  destruct (space1 c1) eqn:H1.
  { destruct (IH r1) as (lead & Hr & Hlead); [simpl; lia|].
    exists (String c1 lead). rewrite sapp_cons, <- Hr. split; [done|].
    simpl. unfold space_byte at 1. by rewrite H1, Hlead. }
  destruct r1 as [|c2 r2]; [by exists ""|].
  destruct (space2 c1 c2) eqn:H2.
  { destruct (IH r2) as (lead & Hr & Hlead); [simpl; lia|].
    apply space2_high in H2 as [Hh1 Hh2].
    exists (String c1 (String c2 lead)). rewrite !sapp_cons, <- Hr.
    split; [done|]. simpl. unfold space_byte at 1 2.
    by rewrite Hh1, Hh2, Hlead, !orb_true_r. }
  destruct r2 as [|c3 r3]; [by exists ""|].
  destruct (space3 c1 c2 c3) eqn:H3; [|by exists ""].
  destruct (IH r3) as (lead & Hr & Hlead); [simpl; lia|].
  apply space3_high in H3 as (Hh1 & Hh2 & Hh3).
  exists (String c1 (String c2 (String c3 lead))). rewrite !sapp_cons, <- Hr.
  split; [done|]. simpl. unfold space_byte at 1 2 3.
  by rewrite Hh1, Hh2, Hh3, Hlead, !orb_true_r.
Qed.

(** A byte that belongs to no space rune stops the trimming, wherever
    it stands. *)
Lemma TrimLeftSpace_at_byte a x b :
  space_byte x = false →
  TrimLeftSpace (a +:+ String x b) = TrimLeftSpace a +:+ String x b.
Proof.
  intros Hx. pose proof (space_byte_false x Hx) as [Hx1 Hxh].
  induction a as [a IH] using string_length_ind.
  destruct a as [|c1 r1]; [by rewrite sapp_nil_l, TrimLeftSpace_head|].
  rewrite sapp_cons, (TrimLeftSpace_unfold (String c1 (r1 +:+ _))).
  rewrite (TrimLeftSpace_unfold (String c1 r1)).
  destruct (space1 c1) eqn:H1; [apply IH; simpl; lia|].
  destruct r1 as [|c2 r2].
  { rewrite sapp_nil_l, (space2_low_r c1 x Hxh).
    destruct b as [|c3 b]; [done|]. by rewrite (space3_low c1 x c3) by auto. }
  rewrite sapp_cons.
  destruct (space2 c1 c2) eqn:H2; [apply IH; simpl; lia|].
  destruct r2 as [|c3 r3].
  { rewrite sapp_nil_l. by rewrite (space3_low c1 c2 x) by auto. }
  rewrite sapp_cons.
  destruct (space3 c1 c2 c3) eqn:H3; [apply IH; simpl; lia|done].
Qed.

Lemma TrimLeftSpace_idemp s : TrimLeftSpace (TrimLeftSpace s) = TrimLeftSpace s.
Proof.
  induction s as [s IH] using string_length_ind.
  rewrite (TrimLeftSpace_unfold s).
  destruct s as [|c1 r1]; [done|].
  destruct (space1 c1) eqn:H1; [apply IH; simpl; lia|].
  destruct r1 as [|c2 r2]; [by rewrite TrimLeftSpace_unfold, H1|].
  destruct (space2 c1 c2) eqn:H2; [apply IH; simpl; lia|].
  destruct r2 as [|c3 r3]; [by rewrite TrimLeftSpace_unfold, H1, H2|].
  destruct (space3 c1 c2 c3) eqn:H3; [apply IH; simpl; lia|].
  by rewrite TrimLeftSpace_unfold, H1, H2, H3.
Qed.

Lemma TrimRightSpace_idemp s :
  TrimRightSpace (TrimRightSpace s) = TrimRightSpace s.
Proof.
  induction s as [|c s IH]; [done|].
  rewrite TrimRightSpace_cons.
  destruct (is_space_rune _) eqn:Hr; [done|].
  by rewrite TrimRightSpace_cons, IH, Hr.
Qed.

(** The trimmed text stands inside the text, between bytes of space
    runes. *)
Lemma TrimSpace_split s :
  ∃ lead trail,
    s = lead +:+ TrimSpace s +:+ trail
    ∧ all_bytes space_byte lead = true ∧ all_bytes space_byte trail = true.
Proof.
  destruct (TrimLeftSpace_split s) as (lead & Hs & Hlead).
  destruct (TrimRightSpace_split (TrimLeftSpace s)) as (trail & Ht & Htrail).
  exists lead, trail. unfold TrimSpace. by rewrite <- Ht, <- Hs.
Qed.

(** *** Trimming on both sides *)

Ltac bytes_lia :=
  unfold space1, space2, space3, is_lead, is_high, is_ascii in *;
  cbv zeta in *;
  repeat match goal with
         | H : _ |- _ =>
             progress rewrite ?orb_true_iff, ?andb_true_iff, ?orb_false_iff,
               ?andb_false_iff, ?N.eqb_eq, ?N.eqb_neq, ?N.leb_le, ?N.leb_gt,
               ?N.ltb_lt, ?N.ltb_ge in H
         end;
  repeat (progress rewrite ?orb_true_iff, ?andb_true_iff, ?orb_false_iff,
            ?andb_false_iff, ?N.eqb_eq, ?N.eqb_neq, ?N.leb_le, ?N.leb_gt,
            ?N.ltb_lt, ?N.ltb_ge);
  lia.

Lemma space2_bytes c1 c2 :
  space2 c1 c2 = true →
  space1 c1 = false ∧ space1 c2 = false ∧ is_lead c2 = false
  ∧ ∀ c3, space3 c1 c2 c3 = false.
Proof.
  intros H. repeat split; try intros c3;
    match goal with |- ?b = false => destruct b eqn:Hb; [exfalso|done] end;
    bytes_lia.
Qed.

Lemma space3_bytes c1 c2 c3 :
  space3 c1 c2 c3 = true →
  space1 c1 = false ∧ space2 c1 c2 = false
  ∧ space1 c2 = false ∧ is_lead c2 = false
  ∧ space1 c3 = false ∧ is_lead c3 = false.
Proof.
  intros H. repeat split;
    match goal with |- ?b = false => destruct b eqn:Hb; [exfalso|done] end;
    bytes_lia.
Qed.

(** A space rune starts with an ASCII space or with a lead byte. *)
Lemma is_space_rune_head c t :
  is_space_rune (String c t) = true → space1 c = true ∨ is_lead c = true.
Proof.
  destruct t as [|c2 [|c3 [|c4 t]]]; simpl; [by left| | |done];
    intros H; right; bytes_lia.
Qed.

Lemma not_space_rune_head c t :
  space1 c = false → is_lead c = false → is_space_rune (String c t) = false.
Proof.
  intros H1 H2. destruct (is_space_rune _) eqn:Hr; [|done].
  apply is_space_rune_head in Hr as [?|?]; congruence.
Qed.

(** The space runes are the one-, two- and three-byte strings that
    [TrimLeftSpace] drops. *)
Lemma is_space_rune_cases e :
  is_space_rune e = true →
  (∃ c1, e = String c1 "" ∧ space1 c1 = true)
  ∨ (∃ c1 c2, e = String c1 (String c2 "") ∧ space2 c1 c2 = true)
  ∨ (∃ c1 c2 c3,
        e = String c1 (String c2 (String c3 "")) ∧ space3 c1 c2 c3 = true).
Proof.
  destruct e as [|c1 [|c2 [|c3 [|c4 t]]]]; simpl; try done; intros H.
  - left. by eauto.
  - right. left. by eauto.
  - right. right. by eauto 6.
Qed.

Lemma starts_with_space_split s :
  starts_with_space s = true →
  ∃ e r, is_space_rune e = true ∧ s = e +:+ r.
Proof.
  destruct s as [|c1 r1]; [done|]. simpl.
  destruct (space1 c1) eqn:H1; [intros _; by exists (String c1 ""), r1|].
  destruct r1 as [|c2 r2]; [done|]. simpl.
  destruct (space2 c1 c2) eqn:H2;
    [intros _; by exists (String c1 (String c2 "")), r2|].
  destruct r2 as [|c3 r3]; [done|]. simpl. intros H3.
  by exists (String c1 (String c2 (String c3 ""))), r3.
Qed.

Lemma TrimLeftSpace_fixed s :
  starts_with_space s = false → TrimLeftSpace s = s.
Proof.
  rewrite TrimLeftSpace_unfold.
  destruct s as [|c1 r1]; [done|]. simpl.
  destruct (space1 c1); [done|].
  destruct r1 as [|c2 r2]; [done|]. simpl.
  destruct (space2 c1 c2); [done|].
  destruct r2 as [|c3 r3]; [done|]. simpl. by intros ->.
Qed.

Lemma starts_with_space_prefix p q :
  starts_with_space (p +:+ q) = false → starts_with_space p = false.
Proof.
  destruct p as [|c1 [|c2 [|c3 p]]]; [done| | |];
    rewrite ?sapp_cons, ?sapp_nil_l; simpl.
  - by intros [-> _]%orb_false_iff.
  - by intros [-> [-> _]%orb_false_iff]%orb_false_iff.
  - done.
Qed.

Lemma TrimLeftSpace_rune e x :
  is_space_rune e = true → TrimLeftSpace (e +:+ x) = TrimLeftSpace x.
Proof.
  intros [(c1 & -> & H1)|[(c1 & c2 & -> & H2)|(c1 & c2 & c3 & -> & H3)]]
    %is_space_rune_cases;
    rewrite !sapp_cons, sapp_nil_l, TrimLeftSpace_unfold.
  - by rewrite H1.
  - destruct (space2_bytes _ _ H2) as (-> & _). by rewrite H2.
  - destruct (space3_bytes _ _ _ H3) as (-> & -> & _). by rewrite H3.
Qed.

Lemma TrimRightSpace_rune e r :
  is_space_rune e = true →
  TrimRightSpace (e +:+ r)
  = match TrimRightSpace r with
    | EmptyString => EmptyString
    | String _ _ => e +:+ TrimRightSpace r
    end.
Proof.
  intros [(c1 & -> & H1)|[(c1 & c2 & -> & H2)|(c1 & c2 & c3 & -> & H3)]]
    %is_space_rune_cases;
    rewrite !sapp_cons, sapp_nil_l, !TrimRightSpace_cons.
  - destruct (TrimRightSpace r) as [|d t]; [simpl; by rewrite H1|].
    assert (is_space_rune (String c1 (String d t)) = false) as ->; [|done].
    apply (not_space_rune_ascii "" (String d t) c1); [|done].
    by apply space1_ascii.
  - destruct (space2_bytes _ _ H2) as (_ & Hs2 & Hl2 & H3).
    rewrite (not_space_rune_head c2) by done.
    destruct (TrimRightSpace r) as [|d [|d' t]]; simpl; by rewrite ?H2, ?H3.
  - destruct (space3_bytes _ _ _ H3) as (_ & H2 & Hs2 & Hl2 & Hs3 & Hl3).
    rewrite (not_space_rune_head c3) by done.
    rewrite (not_space_rune_head c2) by done.
    destruct (TrimRightSpace r) as [|d t]; simpl; by rewrite ?H3.
Qed.

(** Trimming on the left and trimming on the right commute. *)
Lemma TrimLeftSpace_TrimRightSpace s :
  TrimLeftSpace (TrimRightSpace s) = TrimRightSpace (TrimLeftSpace s).
Proof.
  induction s as [s IH] using string_length_ind.
  destruct (starts_with_space s) eqn:Hs.
  - apply starts_with_space_split in Hs as (e & r & He & ->).
    assert (Hr : (String.length r < String.length (e +:+ r))%nat).
    { rewrite sapp_length. destruct e; [done|simpl; lia]. }
    rewrite TrimLeftSpace_rune, TrimRightSpace_rune, <- (IH r Hr) by done.
    destruct (TrimRightSpace r) as [|d t]; [done|].
    by rewrite TrimLeftSpace_rune.
  - rewrite (TrimLeftSpace_fixed s Hs). apply TrimLeftSpace_fixed.
    destruct (TrimRightSpace_split s) as (trail & Hsplit & _).
    rewrite Hsplit in Hs. by eapply starts_with_space_prefix.
Qed.

Lemma TrimSpace_TrimLeftSpace s : TrimSpace (TrimLeftSpace s) = TrimSpace s.
Proof. unfold TrimSpace. by rewrite TrimLeftSpace_idemp. Qed.

Lemma TrimSpace_TrimRightSpace s : TrimSpace (TrimRightSpace s) = TrimSpace s.
Proof.
  unfold TrimSpace.
  by rewrite TrimLeftSpace_TrimRightSpace, TrimRightSpace_idemp.
Qed.

(** Trimming a text that holds a byte of no space rune trims what is
    before the byte on the left and what is after it on the right. *)
Lemma TrimSpace_at_byte a c b :
  is_ascii c = true → space1 c = false →
  TrimSpace (a +:+ String c b)
  = TrimLeftSpace a +:+ String c (TrimRightSpace b).
Proof.
  intros Hc Hs. unfold TrimSpace.
  rewrite TrimLeftSpace_at_byte, TrimRightSpace_at_byte; [done..|].
  unfold space_byte. by rewrite Hs, (ascii_not_high c Hc).
Qed.
End trim_space.

(** ** Version parsing *)

Section version_parsing.
Import semver.

Lemma Join_cons e e' rest sep :
  strings.Join (e :: e' :: rest) sep = e +:+ sep +:+ strings.Join (e' :: rest) sep.
Proof. reflexivity. Qed.

Lemma split_dots_cons s : ∃ piece pieces, split_dots s = piece :: pieces.
Proof.
  induction s as [|c s (piece & pieces & IH)]; simpl; [by eauto|].
  destruct (byte_eq c "."); [by eauto|]. rewrite IH. by eauto.
Qed.

(** Joining the pieces with dots gives the text back. *)
Lemma Join_split_dots s : strings.Join (split_dots s) "." = s.
Proof.
  induction s as [|c s IH]; [done|]. simpl.
  destruct (split_dots_cons s) as (piece & pieces & Hs). rewrite Hs in *.
  destruct (byte_eq c ".") eqn:Hc.
  - apply byte_eq_true in Hc as ->. rewrite Join_cons, IH. done.
  - destruct pieces as [|piece' pieces].
    + simpl in *. by rewrite IH.
    + rewrite Join_cons in *. by rewrite <- IH.
Qed.

Lemma split_dots_piece a :
  all_bytes (is_not ".") a = true → split_dots a = [a].
Proof.
  induction a as [|c a IH]; [done|]. simpl.
  intros [Hc Ha]%andb_true_iff. unfold is_not in Hc.
  destruct (byte_eq c "."); [done|]. by rewrite IH.
Qed.

Lemma split_dots_app a s :
  all_bytes (is_not ".") a = true →
  split_dots (a +:+ "." +:+ s) = a :: split_dots s.
Proof.
  induction a as [|c a IH]; [done|]. rewrite sapp_cons. simpl.
  intros [Hc Ha]%andb_true_iff. unfold is_not in Hc.
  destruct (byte_eq c "."); [done|]. by rewrite IH.
Qed.

(** Splitting dot-free pieces joined by dots gives the pieces back. *)
Lemma split_dots_Join comps :
  Forall (λ a, all_bytes (is_not ".") a = true) comps → comps ≠ [] →
  split_dots (strings.Join comps ".") = comps.
Proof.
  induction 1 as [|a comps Ha Hcomps IH]; [done|]. intros _.
  destruct comps as [|b comps]; [by apply split_dots_piece|].
  rewrite Join_cons, split_dots_app by done. by rewrite IH.
Qed.

Lemma is_digit_not_dot c : is_digit c = true → is_not "." c = true.
Proof.
  unfold is_not. destruct (byte_eq c ".") eqn:Hc; [|done].
  apply byte_eq_true in Hc as ->. by vm_compute.
Qed.

Lemma digits_value_Some s acc :
  all_bytes is_digit s = true → ∃ x, digits_value s acc = Some x.
Proof.
  revert acc. induction s as [|c s IH]; intros acc; simpl; [by eauto|].
  intros [Hc Hs]%andb_true_iff. rewrite Hc. by apply IH.
Qed.

Lemma digits_value_digits s acc x :
  digits_value s acc = Some x → all_bytes is_digit s = true.
Proof.
  revert acc. induction s as [|c s IH]; intros acc; simpl; [done|].
  destruct (is_digit c); [|done]. apply IH.
Qed.

Lemma component_Some a : is_number a ↔ ∃ x, component a = Some x.
Proof.
  split.
  - intros [Hne Hd]. destruct a as [|c a]; [done|].
    by apply digits_value_Some.
  - intros [x Hx]. destruct a as [|c a]; [done|]. split; [done|].
    by eapply digits_value_digits.
Qed.

Lemma component_None a : ¬ is_number a → component a = None.
Proof.
  intros Hn. destruct (component a) as [x|] eqn:Hx; [|done].
  exfalso. apply Hn, component_Some. by eauto.
Qed.

Lemma NewVersion_error v e : NewVersion v = inr e → e = ErrInvalidSemVer.
Proof.
  unfold NewVersion. intros H.
  repeat (match type of H with
          | context [match ?x with _ => _ end] => destruct x
          end); congruence.
Qed.

(** The parser accepts exactly the dotted versions. *)
Lemma NewVersion_accepts v :
  (∃ ver, NewVersion v = inl ver) ↔ dotted_version v.
Proof.
  split.
  - intros [ver Hver]. exists (split_dots v).
    split; [|split; [|by rewrite Join_split_dots]];
      unfold NewVersion in Hver;
      destruct (split_dots v) as [|a [|b [|d [|? ?]]]]; try done;
      simpl; try lia;
      repeat (match type of Hver with
              | context [component ?x] =>
                  let H := fresh "H" in
                  destruct (component x) eqn:H; [|done];
                  assert (is_number x) by (apply component_Some; eauto);
                  clear H
              end);
      repeat (apply List.Forall_cons; [assumption|]); apply List.Forall_nil.
  - intros (comps & Hlen & Hnum & ->).
    assert (Hsplit : split_dots (strings.Join comps ".") = comps).
    { apply split_dots_Join; [|by destruct comps; simpl in *; [lia|]].
      eapply Forall_impl; [exact Hnum|]. intros a [_ Ha].
      eapply all_bytes_impl; [|exact Ha]. apply is_digit_not_dot. }
    unfold NewVersion. rewrite Hsplit.
    destruct comps as [|a [|b [|d [|? ?]]]]; simpl in Hlen; try lia;
      repeat (match goal with
              | H : Forall _ (_ :: _) |- _ => inversion H; clear H; subst
              end);
      repeat (match goal with
              | H : is_number ?x |- _ =>
                  apply component_Some in H as [? ->]
              end);
      by eauto.
Qed.

Lemma NewVersion_rejects v :
  NewVersion v = inr ErrInvalidSemVer ↔ ¬ dotted_version v.
Proof.
  rewrite <- NewVersion_accepts. split.
  - intros H [ver Hver]. congruence.
  - intros H. destruct (NewVersion v) as [ver|e] eqn:Hv.
    + exfalso. by eauto.
    + by rewrite (NewVersion_error v e Hv).
Qed.

End version_parsing.

(** ** The version calculator *)

Section version_calculator.
Import parser version.

Lemma formatVersion_render c ver :
  formatVersion c ver
  = render (Format (Version c)) (semver.Major ver) (semver.Minor ver)
           (semver.Patch ver).
Proof.
  unfold formatVersion, render. by destruct (String.eqb _ _).
Qed.

Lemma IsValid_parseVersion c v :
  IsValid v = true ↔ ∃ ver, parseVersion c v = inl ver.
Proof.
  unfold IsValid, parseVersion.
  destruct (semver.NewVersion _) as [ver|e]; split; try done; eauto.
  by intros [? ?].
Qed.

Lemma IsValid_dotted v :
  IsValid v = true ↔ dotted_version (strings.TrimPrefix v "v").
Proof.
  rewrite <- NewVersion_accepts. unfold IsValid.
  destruct (semver.NewVersion _) as [ver|e]; split; try done; eauto.
  by intros [? ?].
Qed.

Lemma dotted_version_head s :
  dotted_version s → ∃ ch s', s = String.String ch s' ∧ is_digit ch = true.
Proof.
  intros (comps & Hlen & Hnum & ->).
  destruct comps as [|a comps]; [simpl in Hlen; lia|].
  inversion Hnum as [|? ? [Hne Ha] _]; subst.
  destruct a as [|ch a]; [done|]. simpl in Ha.
  apply andb_true_iff in Ha as [Hc _]. exists ch.
  destruct comps; simpl; eauto.
Qed.

Lemma TrimPrefix_dotted s :
  dotted_version s → strings.TrimPrefix s "v" = s.
Proof.
  intros (ch & s' & -> & Hd)%dotted_version_head.
  unfold strings.TrimPrefix. simpl.
  destruct (byte_eq ch "v") eqn:Hv; [|done].
  apply byte_eq_true in Hv as ->. by vm_compute in Hd.
Qed.

(** A leading [v] in front of a dotted version is stripped, and a
    dotted version itself is left alone. *)
Lemma parseVersion_prefix c s :
  dotted_version s → parseVersion c ("v" +:+ s) = parseVersion c s.
Proof.
  intros Hd. unfold parseVersion.
  rewrite (TrimPrefix_dotted s Hd). reflexivity.
Qed.

(** C3: when the current version parses to [(major, minor, patch)],
    [Calculate] returns [(major+1, 0, 0)] for a major bump,
    [(major, minor+1, 0)] for a minor bump and [(major, minor, patch+1)]
    for a patch bump, rendered as MAJOR.MINOR.PATCH with a [v] in front
    exactly when the format is ["v-prefix"], whether or not the input
    had one; so ["1.2.3"] gives ["2.0.0"], ["1.3.0"] and ["1.2.4"]. *)
Theorem Calculate_bump (c : Calculator) (current : string)
    (commits : list Commit) (ver : semver.Version) :
  parseVersion c current = inl ver →
  let format := Format (Version c) in
  let major := semver.Major ver in
  let minor := semver.Minor ver in
  let patch := semver.Patch ver in
  let bump := DetermineBump c commits in
  (bump = BumpMajor →
     Calculate c current commits
     = (render format (major + 1) 0 0, BumpMajor, None))
  ∧ (bump = BumpMinor →
     Calculate c current commits
     = (render format major (minor + 1) 0, BumpMinor, None))
  ∧ (bump = BumpPatch →
     Calculate c current commits
     = (render format major minor (patch + 1), BumpPatch, None))
  ∧ (dotted_version current →
     bump = BumpMajor ∨ bump = BumpMinor ∨ bump = BumpPatch →
     Calculate c ("v" +:+ current) commits = Calculate c current commits)
  ∧ (∀ x y z,
       render format x y z
       = (if String.eqb format "v-prefix" then "v" else "")
         +:+ semver.decimal x +:+ "." +:+ semver.decimal y
         +:+ "." +:+ semver.decimal z)
  ∧ (current = "1.2.3" → String.eqb format "v-prefix" = false →
     (bump = BumpMajor →
        Calculate c current commits = ("2.0.0", BumpMajor, None))
     ∧ (bump = BumpMinor →
        Calculate c current commits = ("1.3.0", BumpMinor, None))
     ∧ (bump = BumpPatch →
        Calculate c current commits = ("1.2.4", BumpPatch, None))).
Proof.
  intros Hver format major minor patch bump.
  assert (Hcalc :
    (bump = BumpMajor →
       Calculate c current commits
       = (render format (major + 1) 0 0, BumpMajor, None))
    ∧ (bump = BumpMinor →
       Calculate c current commits
       = (render format major (minor + 1) 0, BumpMinor, None))
    ∧ (bump = BumpPatch →
       Calculate c current commits
       = (render format major minor (patch + 1), BumpPatch, None))).
  { unfold Calculate. rewrite Hver. fold bump.
    repeat split; intros ->; by rewrite !formatVersion_render. }
  destruct Hcalc as (Hmajor & Hminor & Hpatch).
  split; [exact Hmajor|]. split; [exact Hminor|]. split; [exact Hpatch|].
  split; [|split; [reflexivity|]].
  - intros Hd Hbump. unfold Calculate.
    rewrite (parseVersion_prefix c current Hd), Hver. fold bump.
    by destruct Hbump as [-> |[-> | ->]].
  - intros -> Hformat.
    assert (ver = semver.mkVersion 1 2 3) as ->.
    { vm_compute in Hver. by injection Hver as <-. }
    subst major minor patch. unfold render in *. rewrite Hformat in *.
    split; [exact Hmajor|]. split; [exact Hminor|exact Hpatch].
Qed.

(** C4: [Calculate] fails, with the wrapped parse error and no
    version, exactly when the current version with one leading [v]
    removed is not a dotted version of one to three numbers; one and
    two numbers are accepted and read with zeros for the missing
    components. *)
Theorem Calculate_InvalidVersion (c : Calculator) (current : string)
    (commits : list Commit) :
  (¬ dotted_version (strings.TrimPrefix current "v")
   ↔ Calculate c current commits
     = ("", BumpNone, Some (invalid_version_error current)))
  ∧ (dotted_version (strings.TrimPrefix current "v")
     ↔ (Calculate c current commits).2 = None)
  ∧ (∀ a b x y,
       semver.component a = Some x → semver.component b = Some y →
       parseVersion c a = inl (semver.mkVersion x 0 0)
       ∧ parseVersion c (a +:+ "." +:+ b) = inl (semver.mkVersion x y 0)).
Proof.
  assert (Hcases :
    (dotted_version (strings.TrimPrefix current "v")
     ∧ (Calculate c current commits).2 = None)
    ∨ (¬ dotted_version (strings.TrimPrefix current "v")
       ∧ Calculate c current commits
         = ("", BumpNone, Some (invalid_version_error current)))).
  { unfold Calculate, parseVersion.
    destruct (semver.NewVersion _) as [ver|e] eqn:Hv.
    - left. split; [apply NewVersion_accepts; by eauto|].
      by repeat destruct (String.eqb _ _).
    - right. pose proof (NewVersion_error _ _ Hv) as ->.
      split; [by apply NewVersion_rejects|done]. }
  split; [|split].
  - destruct Hcases as [[Hd Hn]|[Hd He]]; split; try done.
    intros He. rewrite He in Hn. done.
  - destruct Hcases as [[Hd Hn]|[Hd He]]; split; try done.
    rewrite He. done.
  - intros a b x y Ha Hb.
    assert (Hna : is_number a) by (apply component_Some; eauto).
    assert (Hnb : is_number b) by (apply component_Some; eauto).
    assert (Hda : dotted_version a).
    { exists [a]. split; [simpl; lia|]. split; [|done].
      by apply List.Forall_cons. }
    assert (Hdab : dotted_version (a +:+ "." +:+ b)).
    { exists [a; b]. split; [simpl; lia|]. split; [|done].
      apply List.Forall_cons; [done|]. by apply List.Forall_cons. }
    assert (Hdot : ∀ s, is_number s → all_bytes (is_not ".") s = true).
    { intros s [_ Hs]. eapply all_bytes_impl; [|exact Hs].
      apply is_digit_not_dot. }
    unfold parseVersion. rewrite !TrimPrefix_dotted by done.
    unfold semver.NewVersion.
    rewrite split_dots_piece by auto.
    rewrite split_dots_app, split_dots_piece by auto.
    by rewrite Ha, Hb.
Qed.

(** C7: for a valid current version, whatever the format, a resolved
    bump of [none] makes [Calculate] return the input text itself, with
    bump [none] and no error. *)
Theorem Calculate_none (c : Calculator) (current : string)
    (commits : list Commit) :
  IsValid current = true → DetermineBump c commits = BumpNone →
  Calculate c current commits = (current, BumpNone, None).
Proof.
  intros [ver Hver]%(IsValid_parseVersion c) Hnone.
  unfold Calculate. by rewrite Hver, Hnone.
Qed.

Lemma compare_component_range a b :
  semver.compare_component a b = -1 ∨ semver.compare_component a b = 0
  ∨ semver.compare_component a b = 1.
Proof. unfold semver.compare_component. destruct (a ?= b)%N; auto. Qed.

Lemma semver_Compare_range v o :
  semver.Compare v o = -1 ∨ semver.Compare v o = 0 ∨ semver.Compare v o = 1.
Proof.
  unfold semver.Compare.
  repeat destruct (negb _); apply compare_component_range.
Qed.

(** C10: [Compare] has an error branch.  When either argument, one
    leading [v] removed, fails to parse, it returns [0] with an error;
    it returns one of [-1], [0], [1] with no error exactly when both
    arguments are valid versions. *)
Theorem Compare_partial (v1 v2 : string) :
  (IsValid v1 = false →
     Compare v1 v2 = (0, Some (Errorf "invalid version v1: " ErrInvalidSemVer)))
  ∧ (IsValid v1 = true → IsValid v2 = false →
     Compare v1 v2 = (0, Some (Errorf "invalid version v2: " ErrInvalidSemVer)))
  ∧ ((Compare v1 v2).2 = None ↔ IsValid v1 = true ∧ IsValid v2 = true)
  ∧ ((Compare v1 v2).2 = None →
     (Compare v1 v2).1 = -1 ∨ (Compare v1 v2).1 = 0 ∨ (Compare v1 v2).1 = 1)
  ∧ (∀ v, IsValid v = true ↔ dotted_version (strings.TrimPrefix v "v"))
  ∧ (Compare "invalid" "1.2.3").2 ≠ None.
Proof.
  unfold Compare, IsValid.
  destruct (semver.NewVersion (strings.TrimPrefix v1 "v")) as [ver1|e1] eqn:H1;
    destruct (semver.NewVersion (strings.TrimPrefix v2 "v")) as [ver2|e2] eqn:H2;
    try (apply NewVersion_error in H1 as ->);
    try (apply NewVersion_error in H2 as ->);
    simpl; (repeat split); try done;
    try (by intros [? ?]); try (intros _; apply semver_Compare_range);
    try (intros v; apply IsValid_dotted); apply IsValid_dotted.
Qed.

End version_calculator.

(** ** The matcher *)

Section matcher_facts.
Import regexp.

Lemma consumed_app (w s : string) : consumed (w +:+ s) s = w.
Proof.
  unfold consumed. rewrite sapp_length.
  replace (String.length w + String.length s - String.length s)%nat
    with (String.length w) by lia.
  apply slice_to_app.
Qed.

(** *** Soundness: a successful run matches a prefix of the text *)

Lemma star_sound {A} p s (k : string → option A) res :
  star p s k = Some res →
  ∃ w s', s = w +:+ s' ∧ all_bytes p w = true ∧ k s' = Some res.
Proof.
  induction s as [|c s IH]; simpl.
  - intros H. by exists "", "".
  - destruct (p c) eqn:Hc; [|intros H; by exists "", (String c s)].
    destruct (star p s k) as [r|] eqn:Hs.
    + intros [= ->]. destruct (IH eq_refl) as (w & s' & -> & Hw & Hk).
      exists (String c w), s'. rewrite sapp_cons. simpl. by rewrite Hc, Hw.
    + intros H. by exists "", (String c s).
Qed.

Lemma plus_sound {A} p s (k : string → option A) res :
  plus p s k = Some res →
  ∃ w s', s = w +:+ s' ∧ w ≠ "" ∧ all_bytes p w = true ∧ k s' = Some res.
Proof.
  destruct s as [|c s]; simpl; [done|].
  destruct (p c) eqn:Hc; [|done].
  intros (w & s' & -> & Hw & Hk)%star_sound.
  exists (String c w), s'. rewrite sapp_cons. simpl. by rewrite Hc, Hw.
Qed.

Lemma run_sound r s caps k res :
  run r s caps k = Some res →
  ∃ w s' caps',
    s = w +:+ s' ∧ matches r w caps caps' ∧ k s' caps' = Some res.
Proof.
  revert s caps k.
  induction r as [w|p|p|r1 IH1 r2 IH2|r IH|name r IH]; intros s caps k; simpl.
  - destruct (strings.HasPrefix s w) eqn:Hw; [|done]. intros Hk.
    exists w, (strings.slice_from (String.length w) s), caps.
    split; [by apply HasPrefix_split|]. split; [constructor|done].
  - intros (w & s' & -> & Hne & Hw & Hk)%plus_sound.
    exists w, s', caps. split; [done|]. split; [by constructor|done].
  - intros (w & s' & -> & Hw & Hk)%star_sound.
    exists w, s', caps. split; [done|]. split; [by constructor|done].
  - intros (w1 & s1 & caps1 & -> & Hm1 & H2)%IH1.
    apply IH2 in H2 as (w2 & s2 & caps2 & -> & Hm2 & Hk).
    exists (w1 +:+ w2), s2, caps2. rewrite sapp_assoc.
    split; [done|]. split; [by econstructor|done].
  - destruct (run r s caps k) as [res'|] eqn:Hr.
    + intros [= ->]. apply IH in Hr as (w & s' & caps' & -> & Hm & Hk).
      exists w, s', caps'. split; [done|]. split; [by constructor|done].
    + intros Hk. exists "", s, caps. split; [done|].
      split; [apply matches_Opt_none|done].
  - intros (w & s' & caps' & -> & Hm & Hk)%IH.
    rewrite consumed_app in Hk.
    exists w, s', (<[name := w]> caps'). split; [done|].
    split; [by constructor|done].
Qed.

Lemma at_end_Some s caps res : at_end s caps = Some res → s = "" ∧ res = caps.
Proof. destruct s; simpl; [by intros [= ->]|done]. Qed.

(** A match of an anchored pattern is a match of the whole text. *)
Lemma FindStringSubmatch_sound re s ms :
  FindStringSubmatch re s = Some ms →
  ∃ caps,
    matches (body re) s ∅ caps
    ∧ ms = s :: map (λ name, default "" (caps !! name)) (group_names (body re)).
Proof.
  unfold FindStringSubmatch.
  destruct (run (body re) s ∅ at_end) as [caps|] eqn:Hrun; [|done].
  intros [= <-].
  apply run_sound in Hrun as (w & s' & caps' & -> & Hm & Hend).
  apply at_end_Some in Hend as [-> ->]. rewrite sapp_nil_r. by exists caps'.
Qed.

(** *** Greedy repetition *)

Lemma star_stop {A} p s (k : string → option A) :
  match s with
  | EmptyString => True
  | String c _ => p c = false
  end →
  star p s k = k s.
Proof. destruct s as [|c s]; simpl; [done|]. by intros ->. Qed.

Lemma star_app {A} p w s (k : string → option A) res :
  all_bytes p w = true → star p s k = Some res →
  star p (w +:+ s) k = Some res.
Proof.
  intros Hw Hs. induction w as [|c w IH]; [done|].
  simpl in Hw. apply andb_true_iff in Hw as [Hc Hw].
  rewrite sapp_cons. simpl. by rewrite Hc, IH.
Qed.

Lemma plus_app {A} p w s (k : string → option A) res :
  w ≠ "" → all_bytes p w = true → star p s k = Some res →
  plus p (w +:+ s) k = Some res.
Proof.
  intros Hne Hw Hs. destruct w as [|c w]; [done|].
  simpl in Hw. apply andb_true_iff in Hw as [Hc Hw].
  rewrite sapp_cons. simpl. rewrite Hc. by apply star_app.
Qed.

(** A group over a repeated class takes the longest run of the class
    when the rest of the pattern then succeeds. *)
Lemma run_Group_Plus name p w s caps k res :
  w ≠ "" → all_bytes p w = true →
  match s with
  | EmptyString => True
  | String c _ => p c = false
  end →
  k s (<[name := w]> caps) = Some res →
  run (Group name (Plus p)) (w +:+ s) caps k = Some res.
Proof.
  intros Hne Hw Hs Hk. simpl. apply plus_app; [done|done|].
  rewrite star_stop by done. by rewrite consumed_app.
Qed.

Lemma run_Lit w s caps k : run (Lit w) (w +:+ s) caps k = k s caps.
Proof. simpl. by rewrite HasPrefix_app, slice_from_app. Qed.

Lemma run_Seq r1 r2 s caps k :
  run (Seq r1 r2) s caps k = run r1 s caps (λ s' caps', run r2 s' caps' k).
Proof. reflexivity. Qed.

Lemma run_Opt_skip r s caps k :
  run r s caps k = None → run (Opt r) s caps k = k s caps.
Proof. simpl. by intros ->. Qed.

Lemma run_Opt_take r s caps k res :
  run r s caps k = Some res → run (Opt r) s caps k = Some res.
Proof. simpl. by intros ->. Qed.

(** *** Captured texts *)

(** Every captured text is a piece of the matched text. *)
Lemma matches_captures r w caps caps' name v :
  matches r w caps caps' → caps' !! name = Some v →
  caps !! name = Some v ∨ strings.Contains w v = true.
Proof.
  intros Hm. revert name v.
  induction Hm as [| | |r1 r2 w1 w2 c0 c1 c2 _ IH1 _ IH2|r w c0 c1 _ IH| |n r w c0 c1 _ IH];
    intros name v Hv; try by left.
  - destruct (IH2 _ _ Hv) as [H1|H2].
    + destruct (IH1 _ _ H1) as [?|H1']; [by left|right].
      apply Contains_true in H1' as (a & b & ->).
      apply Contains_true. exists a, (b +:+ w2). by rewrite !sapp_assoc.
    + right. apply Contains_true in H2 as (a & b & ->).
      apply Contains_true. exists (w1 +:+ a), b. by rewrite !sapp_assoc.
  - by apply IH.
  - destruct (decide (n = name)) as [->|Hne].
    + rewrite lookup_insert_eq in Hv. injection Hv as <-. right.
      apply Contains_true. exists "", "". by rewrite sapp_nil_l, sapp_nil_r.
    + rewrite lookup_insert_ne in Hv by done. by apply IH.
Qed.

End matcher_facts.

(** ** The commit message parser *)

Section parse_facts.
Import regexp strings.

Lemma Parse_unfold message :
  parser.Parse message
  = (match parser.match_patterns parser.patterns (TrimSpace message)
             (scanned message) with
     | Some commit => commit
     | None => parser.fallback (TrimSpace message) (scanned message)
     end, None).
Proof.
  unfold parser.Parse, scanned, breaking_scan.
  destruct (Contains _ _ || Contains _ _);
    by destruct (parser.match_patterns _ _ _).
Qed.

(** The patterns are tried in order and the first match is used. *)
Lemma match_patterns_first pre pattern post message commit ms :
  Forall (λ p, FindStringSubmatch p message = None) pre →
  FindStringSubmatch pattern message = Some ms →
  parser.match_patterns (pre ++ pattern :: post) message commit
  = Some (parser.assign_groups 0 (SubexpNames pattern) ms commit).
Proof.
  intros Hpre Hms. induction Hpre as [|p pre Hp _ IH]; simpl.
  - by rewrite Hms.
  - by rewrite Hp.
Qed.

Lemma match_patterns_none ps message commit :
  Forall (λ p, FindStringSubmatch p message = None) ps →
  parser.match_patterns ps message commit = None.
Proof. induction 1 as [|p ps Hp _ IH]; simpl; [done|]. by rewrite Hp. Qed.

(** *** Occurrences of a word and trimming *)

Lemma last_byte_app p (a : string) c :
  last_byte p (a +:+ String c "") = p c.
Proof.
  induction a as [|d a IH]; [done|]. rewrite sapp_cons. simpl.
  rewrite IH. destruct a; [|done]. by rewrite sapp_nil_l.
Qed.

Lemma last_byte_all p q (w : string) :
  all_bytes p w = true → last_byte q w = true → ∃ c, p c = true ∧ q c = true.
Proof.
  induction w as [|c w IH]; [done|]. simpl.
  intros [Hc Hw]%andb_true_iff. destruct w as [|d w]; [by eauto|].
  by apply IH.
Qed.

Lemma HasPrefix_all p (s w : string) :
  HasPrefix s w = true → all_bytes p s = true → all_bytes p w = true.
Proof.
  intros [b ->]%HasPrefix_true. by intros [? ?]%all_bytes_app_true.
Qed.

(** A prefix of [m +:+ trail] whose last byte cannot occur in [trail]
    is a prefix of [m]. *)
Lemma HasPrefix_before_trail p (w m trail : string) :
  all_bytes p trail = true → last_byte (λ c, negb (p c)) w = true →
  HasPrefix (m +:+ trail) w = true → HasPrefix m w = true.
Proof.
  intros Htrail. revert m.
  induction w as [|c w IH]; intros m Hlast; [done|].
  destruct m as [|d m].
  - rewrite sapp_nil_l. intros Hw. exfalso.
    pose proof (HasPrefix_all p _ _ Hw Htrail) as Hall.
    destruct (last_byte_all _ _ _ Hall Hlast) as (e & He & Hne).
    by rewrite He in Hne.
  - rewrite sapp_cons. simpl. intros [Hd Hw]%andb_true_iff. rewrite Hd. simpl.
    destruct w as [|e w]; [done|]. by apply IH.
Qed.

Lemma Contains_before_trail p (w m trail : string) :
  all_bytes p trail = true → last_byte (λ c, negb (p c)) w = true →
  Contains (m +:+ trail) w = true → Contains m w = true.
Proof.
  intros Htrail Hlast.
  induction m as [|d m IH].
  - rewrite sapp_nil_l. intros (a & b & ->)%Contains_true. exfalso.
    apply all_bytes_app_true in Htrail as [_ Htrail].
    apply all_bytes_app_true in Htrail as [Hall _].
    destruct (last_byte_all _ _ _ Hall Hlast) as (e & He & Hne).
    by rewrite He in Hne.
  - rewrite sapp_cons, !(Contains_unfold (String d _)).
    intros [Hw|Hw]%orb_true_iff.
    + rewrite <- sapp_cons in Hw.
      by rewrite (HasPrefix_before_trail p _ _ _ Htrail Hlast Hw).
    + rewrite (IH Hw). apply orb_true_r.
Qed.

Lemma Contains_after_lead p (w m lead : string) c w' :
  all_bytes p lead = true → w = String c w' → p c = false →
  Contains (lead +:+ m) w = true → Contains m w = true.
Proof.
  intros Hlead -> Hc. induction lead as [|d lead IH]; [done|].
  simpl in Hlead. apply andb_true_iff in Hlead as [Hd Hlead].
  rewrite sapp_cons, Contains_unfold. intros [Hw|Hw]%orb_true_iff.
  - simpl in Hw. apply andb_true_iff in Hw as [Heq _].
    apply byte_eq_true in Heq as ->. congruence.
  - by apply IH.
Qed.

(** Trimming neither removes nor creates an occurrence of a solid
    word. *)
Lemma Contains_TrimSpace (s w : string) :
  solid w = true → Contains (TrimSpace s) w = Contains s w.
Proof.
  intros Hw. destruct (TrimSpace_split s) as (lead & trail & Hs & Hl & Ht).
  destruct w as [|c w']; [done|].
  apply andb_true_iff in Hw as [Hc Hlast]. apply negb_true_iff in Hc.
  destruct (Contains (TrimSpace s) _) eqn:Hin; symmetry.
  - apply Contains_true in Hin as (a & b & Hab). apply Contains_true.
    exists (lead +:+ a), (b +:+ trail). rewrite Hs at 1. rewrite Hab.
    by rewrite !sapp_assoc.
  - destruct (Contains s _) eqn:Hin'; [|done]. rewrite <- Hin.
    rewrite Hs in Hin'. symmetry.
    eapply (Contains_before_trail space_byte); [exact Ht|exact Hlast|].
    by apply (Contains_after_lead space_byte _ _ lead c w').
Qed.

Lemma breaking_scan_spec message :
  breaking_scan message
  = Contains message "Breaking" || Contains message "BREAKING".
Proof.
  unfold breaking_scan. by rewrite !Contains_TrimSpace by done.
Qed.

(** *** The force-major flag *)

Lemma assign_group_keeps_force name value commit :
  parser.ForceMajor commit = true →
  parser.ForceMajor (parser.assign_group name value commit) = true.
Proof.
  intros H. unfold parser.assign_group.
  repeat (destruct (String.eqb _ _); [by simpl|]).
  destruct (String.eqb _ _); [|done]. by destruct (String.eqb _ _).
Qed.

Lemma assign_groups_keeps_force i names ms commit :
  parser.ForceMajor commit = true →
  parser.ForceMajor (parser.assign_groups i names ms commit) = true.
Proof.
  revert i ms commit.
  induction names as [|name names IH]; intros i ms commit H; [done|].
  destruct ms as [|value ms]; [done|]. simpl. apply IH.
  destruct (_ || _); [done|]. by apply assign_group_keeps_force.
Qed.

Lemma fallback_unfold m commit :
  parser.fallback m commit
  = match Cut m ":" with
    | Some (part0, part1) =>
        let t := TrimSpace part0 in
        parser.mkCommit (parser.Hash commit) (parser.Message commit)
          (if HasSuffix t "!" then TrimSuffix t "!" else t)
          (parser.Scope commit) (parser.Board commit) (TrimSpace part1)
          (HasSuffix t "!" || parser.ForceMajor commit)
    | None => commit
    end.
Proof.
  unfold parser.fallback. simpl SplitN.
  destruct (Cut m ":") as [[part0 part1]|]; [|done]. simpl.
  by destruct (HasSuffix (TrimSpace part0) "!").
Qed.

(** What each pattern writes into the record. *)
Lemma assign_pattern1 m bo sc ty de commit :
  parser.assign_groups 0 (SubexpNames parser.pattern1) [m; bo; sc; ty; de] commit
  = parser.mkCommit (parser.Hash commit) (parser.Message commit)
      (TrimSpace ty) sc bo de (parser.ForceMajor commit).
Proof. reflexivity. Qed.

Lemma assign_pattern2 m bo sc ty de commit :
  parser.assign_groups 0 (SubexpNames parser.pattern2) [m; bo; sc; ty; de] commit
  = parser.mkCommit (parser.Hash commit) (parser.Message commit)
      (TrimSpace ty) sc bo de (parser.ForceMajor commit).
Proof. reflexivity. Qed.

Lemma assign_pattern3 m bo ty de commit :
  parser.assign_groups 0 (SubexpNames parser.pattern3) [m; bo; ty; de] commit
  = parser.mkCommit (parser.Hash commit) (parser.Message commit)
      (TrimSpace ty) (parser.Scope commit) bo de (parser.ForceMajor commit).
Proof. reflexivity. Qed.

Lemma assign_pattern4 m ty fo sc de commit :
  parser.assign_groups 0 (SubexpNames parser.pattern4) [m; ty; fo; sc; de] commit
  = parser.mkCommit (parser.Hash commit) (parser.Message commit)
      (TrimSpace ty) sc (parser.Board commit) de
      (if String.eqb fo "!" then true else parser.ForceMajor commit).
Proof.
  change (parser.assign_groups 0 (SubexpNames parser.pattern4)
            [m; ty; fo; sc; de] commit)
    with (parser.set_Description
            (parser.set_Scope
               (parser.assign_group "force" fo (parser.set_Type commit (TrimSpace ty)))
               sc) de).
  unfold parser.assign_group. simpl String.eqb at 1 2 3 4 5. cbv iota.
  by destruct (String.eqb fo "!").
Qed.

(** *** What the patterns match *)

Ltac invert_matches :=
  repeat match goal with
         | H : matches (Seq _ _) _ _ _ |- _ => inversion H; subst; clear H
         | H : matches (Group _ _) _ _ _ |- _ => inversion H; subst; clear H
         | H : matches (Lit _) _ _ _ |- _ => inversion H; subst; clear H
         | H : matches (Plus _) _ _ _ |- _ => inversion H; subst; clear H
         | H : matches (Star _) _ _ _ |- _ => inversion H; subst; clear H
         | H : matches (Opt _) _ _ _ |- _ => inversion H; subst; clear H
         end.

(** The generic pattern: a type of word bytes, an optional [!], an
    optional parenthesised scope, [": "] and a description without
    newline. *)
Lemma pattern4_matches m caps :
  matches (body parser.pattern4) m ∅ caps →
  ∃ ty fo sc de,
    m = ty +:+ fo +:+ sc +:+ ": " +:+ de
    ∧ ty ≠ "" ∧ all_bytes is_word ty = true
    ∧ de ≠ "" ∧ all_bytes is_any de = true
    ∧ (fo = "!" ∧ caps !! "force" = Some "!"
       ∨ fo = "" ∧ caps !! "force" = None)
    ∧ ((∃ s, s ≠ "" ∧ all_bytes (is_not ")") s = true
             ∧ sc = "(" +:+ s +:+ ")" ∧ caps !! "scope" = Some s)
       ∨ sc = "" ∧ caps !! "scope" = None)
    ∧ caps !! "type" = Some ty ∧ caps !! "desc" = Some de.
Proof.
  unfold parser.pattern4, parser.scope_part. simpl body. intros H.
  invert_matches.
  all: do 4 eexists; (split; [reflexivity|]).
  all: repeat (split; [by (done || eauto)|]).
  all: repeat match goal with
              | |- _ ∧ _ => split
              | |- (∃ _, _) ∨ _ => left; eexists
              end;
       try done; try reflexivity; by simplify_map_eq.
Qed.

(** The three board patterns start with capital letters and a dash. *)
Lemma board_pattern_matches re m caps :
  re = parser.pattern1 ∨ re = parser.pattern2 ∨ re = parser.pattern3 →
  matches (body re) m ∅ caps →
  ∃ u rest, u ≠ "" ∧ all_bytes is_upper u = true ∧ m = u +:+ "-" +:+ rest.
Proof.
  intros [->|[->| ->]];
    unfold parser.pattern1, parser.pattern2, parser.pattern3,
      parser.scope_part, parser.board_id; simpl body; intros H;
    invert_matches;
    match goal with
    | Hu : all_bytes is_upper ?u = true |- _ =>
        exists u; eexists; split; [assumption|]; split; [assumption|]
    end;
    rewrite ?sapp_assoc; reflexivity.
Qed.

(** None of the board patterns sets the flag; the generic pattern sets
    it exactly when its [force] group took part in the match. *)
Lemma board_pattern_force re m ms commit :
  re = parser.pattern1 ∨ re = parser.pattern2 ∨ re = parser.pattern3 →
  FindStringSubmatch re m = Some ms →
  parser.ForceMajor (parser.assign_groups 0 (SubexpNames re) ms commit)
  = parser.ForceMajor commit.
Proof.
  intros Hre (caps & _ & ->)%FindStringSubmatch_sound.
  by destruct Hre as [->|[->| ->]].
Qed.

Lemma pattern4_force m ms commit :
  FindStringSubmatch parser.pattern4 m = Some ms →
  parser.ForceMajor (parser.assign_groups 0 (SubexpNames parser.pattern4) ms commit)
  = true →
  parser.ForceMajor commit = true
  ∨ ∃ ty rest, all_bytes is_word ty = true ∧ m = ty +:+ "!" +:+ rest.
Proof.
  intros (caps & Hm & ->)%FindStringSubmatch_sound.
  simpl map. rewrite assign_pattern4.
  apply pattern4_matches in Hm
    as (ty & fo & sc & de & -> & _ & Hty & _ & _ & Hfo & _).
  destruct Hfo as [[-> ->]|[-> ->]]; simpl; [|by left].
  intros _. right. by exists ty, (sc +:+ ": " +:+ de).
Qed.

Lemma patterns_cases m commit :
  (∃ re ms,
      (re = parser.pattern1 ∨ re = parser.pattern2 ∨ re = parser.pattern3
       ∨ re = parser.pattern4)
      ∧ FindStringSubmatch re m = Some ms
      ∧ parser.match_patterns parser.patterns m commit
        = Some (parser.assign_groups 0 (SubexpNames re) ms commit))
  ∨ (Forall (λ p, FindStringSubmatch p m = None) parser.patterns
     ∧ parser.match_patterns parser.patterns m commit = None).
Proof.
  unfold parser.patterns. simpl parser.match_patterns.
  destruct (FindStringSubmatch parser.pattern1 m) as [ms|] eqn:H1;
    [left; exists parser.pattern1, ms; by auto|].
  destruct (FindStringSubmatch parser.pattern2 m) as [ms|] eqn:H2;
    [left; exists parser.pattern2, ms; by auto|].
  destruct (FindStringSubmatch parser.pattern3 m) as [ms|] eqn:H3;
    [left; exists parser.pattern3, ms; by auto|].
  destruct (FindStringSubmatch parser.pattern4 m) as [ms|] eqn:H4;
    [left; exists parser.pattern4, ms; by auto 6|].
  right. split; [|done]. by repeat constructor.
Qed.

Lemma space_byte_not_colon c : space_byte c = true → is_not ":" c = true.
Proof.
  unfold is_not. destruct (byte_eq c ":") eqn:Hc; [|done].
  apply byte_eq_true in Hc as ->. by vm_compute.
Qed.

Lemma is_word_not_colon c : is_word c = true → is_not ":" c = true.
Proof.
  unfold is_not. destruct (byte_eq c ":") eqn:Hc; [|done].
  apply byte_eq_true in Hc as ->. by vm_compute.
Qed.

Lemma no_colon (s : string) :
  Contains s ":" = false ↔ all_bytes (is_not ":") s = true.
Proof. rewrite Contains_byte. by destruct (all_bytes _ _). Qed.

(** C5: the four patterns are tried in the order pattern 1 to pattern
    4 on the whole trimmed message and the first that matches decides
    the record; ["B-1(x,y): <Fix> msg"] is matched by pattern 1 and
    parses to type [Fix], board [B-1], scope [x,y] and description
    [msg]. *)
Theorem patterns_priority (message : string) :
  parser.patterns
  = [parser.pattern1; parser.pattern2; parser.pattern3; parser.pattern4]
  ∧ (∀ pre pattern post ms,
       parser.patterns = pre ++ pattern :: post →
       Forall (λ p, FindStringSubmatch p (TrimSpace message) = None) pre →
       FindStringSubmatch pattern (TrimSpace message) = Some ms →
       parser.Parse message
       = (parser.assign_groups 0 (SubexpNames pattern) ms (scanned message),
          None))
  ∧ (∀ pattern ms,
       FindStringSubmatch pattern (TrimSpace message) = Some ms →
       ∃ caps groups,
         matches (body pattern) (TrimSpace message) ∅ caps
         ∧ ms = TrimSpace message :: groups)
  ∧ FindStringSubmatch parser.pattern1 "B-1(x,y): <Fix> msg"
    = Some ["B-1(x,y): <Fix> msg"; "B-1"; "x,y"; "Fix"; "msg"]
  ∧ parser.Parse "B-1(x,y): <Fix> msg"
    = (parser.mkCommit "" "B-1(x,y): <Fix> msg" "Fix" "x,y" "B-1" "msg" false,
       None).
Proof.
  split; [reflexivity|]. split; [|split; [|split; by vm_compute]].
  - intros pre pattern post ms Hps Hpre Hms.
    rewrite Parse_unfold, Hps.
    by rewrite (match_patterns_first pre pattern post _ _ ms).
  - intros pattern ms (caps & Hm & ->)%FindStringSubmatch_sound.
    by eexists _, _.
Qed.

(** C2: a message that holds "Breaking" or "BREAKING" anywhere parses
    to a record with the force-major flag set, whichever pattern or
    fallback applies; and the flag is set only for such a message or
    for one that has a [!] before any colon. *)
Theorem Parse_ForceMajor (message : string) :
  (Contains message "Breaking" = true ∨ Contains message "BREAKING" = true →
     parser.ForceMajor (parser.Parse message).1 = true)
  ∧ (parser.ForceMajor (parser.Parse message).1 = true →
       Contains message "Breaking" = true ∨ Contains message "BREAKING" = true
       ∨ ∃ pre post,
           message = pre +:+ "!" +:+ post ∧ Contains pre ":" = false).
Proof.
  rewrite Parse_unfold. cbn [fst].
  assert (Hscan : parser.ForceMajor (scanned message)
                  = Contains message "Breaking" || Contains message "BREAKING")
    by apply breaking_scan_spec.
  destruct (TrimSpace_split message) as (lead & trail & Hmsg & Hlead & _).
  assert (Hlead' : all_bytes (is_not ":") lead = true).
  { eapply all_bytes_impl; [|exact Hlead]. apply space_byte_not_colon. }
  destruct (patterns_cases (TrimSpace message) (scanned message))
    as [(re & ms & Hre & Hms & ->)|[_ ->]].
  - split.
    + intros H. apply assign_groups_keeps_force. rewrite Hscan.
      by destruct H as [-> | ->]; rewrite ?orb_true_r.
    + intros Hforce.
      assert (Hcases : parser.ForceMajor (scanned message) = true
                ∨ ∃ ty rest, all_bytes is_word ty = true
                             ∧ TrimSpace message = ty +:+ "!" +:+ rest).
      { destruct Hre as [Hre|[Hre|[Hre| ->]]];
          [left; rewrite <- Hforce; symmetry;
           apply (board_pattern_force re (TrimSpace message) ms); by auto..|].
        by eapply pattern4_force. }
      destruct Hcases as [Hs|(ty & rest & Hty & Hm)].
      * rewrite Hscan in Hs. apply orb_true_iff in Hs. tauto.
      * right. right. exists (lead +:+ ty), (rest +:+ trail). split.
        -- rewrite Hmsg at 1. rewrite Hm. by rewrite !sapp_assoc.
        -- apply no_colon, all_bytes_app_true. split; [done|].
           eapply all_bytes_impl; [|exact Hty]. apply is_word_not_colon.
  - rewrite fallback_unfold.
    destruct (Cut (TrimSpace message) ":") as [[part0 part1]|] eqn:Hcut.
    + cbn [parser.ForceMajor]. apply Cut_byte_Some in Hcut as [Hm Hpart0].
      split.
      * intros H. rewrite Hscan.
        destruct H as [-> | ->]; by rewrite ?orb_true_r.
      * intros [Hbang|Hs]%orb_true_iff.
        -- right. right.
           apply HasSuffix_true in Hbang as [a Ha].
           destruct (TrimSpace_split part0) as (l & t & Hp0 & _ & _).
           rewrite Ha in Hp0.
           exists (lead +:+ l +:+ a), (t +:+ ":" +:+ part1 +:+ trail). split.
           ++ rewrite Hmsg at 1. rewrite Hm. rewrite Hp0 at 1.
              by rewrite !sapp_assoc.
           ++ rewrite Hp0 in Hpart0.
              apply all_bytes_app_true in Hpart0 as [Hl Hrest].
              rewrite sapp_assoc in Hrest.
              apply all_bytes_app_true in Hrest as [Ha' _].
              apply no_colon. by rewrite !all_bytes_app, Hlead', Hl, Ha'.
        -- rewrite Hscan in Hs. apply orb_true_iff in Hs. tauto.
    + rewrite Hscan, orb_true_iff. tauto.
Qed.

(** The fallback splits the trimmed message at its first colon; in
    terms of the message itself the two parts are what stands before
    and after the first colon, trimmed. *)
Lemma Cut_TrimSpace pre post :
  Contains pre ":" = false →
  Cut (TrimSpace (pre +:+ ":" +:+ post)) ":"
  = Some (TrimLeftSpace pre, TrimRightSpace post).
Proof.
  intros Hpre%no_colon.
  change (":" +:+ post) with (String ":" post).
  rewrite TrimSpace_at_byte by done.
  apply Cut_byte_Some. split; [done|].
  destruct (TrimLeftSpace_split pre) as (lead & Hsplit & _).
  rewrite Hsplit in Hpre. by apply all_bytes_app_true in Hpre as [_ ?].
Qed.

Lemma Cut_no_colon m : Contains m ":" = false → Cut m ":" = None.
Proof. intros H%no_colon. by apply Cut_byte_None. Qed.

Lemma TrimSpace_no_colon s :
  Contains s ":" = false → Contains (TrimSpace s) ":" = false.
Proof.
  intros Hs. destruct (TrimSpace_split s) as (lead & trail & Hsplit & _).
  rewrite Hsplit in Hs.
  apply Contains_false_app in Hs as [_ Hs].
  by apply Contains_false_app in Hs as [Hs _].
Qed.

(** C6: [Parse] never fails.  When none of the four patterns matches,
    a message with a colon gives as type the trimmed text before the
    first colon with one trailing [!] removed, the flag being set when
    one is removed, and as description the trimmed text after the
    first colon; a message without colon gives a record with empty
    type that carries only the flag of the "Breaking" scan. *)
Theorem Parse_fallback (message : string) :
  (parser.Parse message).2 = None
  ∧ (Forall (λ p, FindStringSubmatch p (TrimSpace message) = None)
            parser.patterns →
     let commit := (parser.Parse message).1 in
     let scan := Contains message "Breaking" || Contains message "BREAKING" in
     (∀ pre post,
         message = pre +:+ ":" +:+ post → Contains pre ":" = false →
         let ty := TrimSpace pre in
         parser.Type_ commit
         = (if HasSuffix ty "!" then TrimSuffix ty "!" else ty)
         ∧ parser.ForceMajor commit = HasSuffix ty "!" || scan
         ∧ parser.Description commit = TrimSpace post
         ∧ parser.Scope commit = "" ∧ parser.Board commit = "")
     ∧ (∀ ty, TrimSuffix (ty +:+ "!") "!" = ty)
     ∧ (Contains message ":" = false →
        commit = parser.mkCommit "" message "" "" "" "" scan)).
Proof.
  rewrite Parse_unfold. split; [done|]. intros Hnone commit scan.
  assert (Hscan : breaking_scan message = scan) by apply breaking_scan_spec.
  assert (Hcommit : commit = parser.fallback (TrimSpace message) (scanned message)).
  { subst commit. cbn [fst]. by rewrite (match_patterns_none _ _ _ Hnone). }
  rewrite Hcommit, fallback_unfold. clear Hcommit commit.
  split; [|split; [intros ty; apply TrimSuffix_app|]].
  - intros pre post -> Hpre ty.
    rewrite (Cut_TrimSpace pre post Hpre). cbn.
    rewrite TrimSpace_TrimLeftSpace, TrimSpace_TrimRightSpace.
    by rewrite Hscan.
  - intros Hcolon.
    rewrite (Cut_no_colon _ (TrimSpace_no_colon _ Hcolon)).
    unfold scanned. by rewrite Hscan.
Qed.

(** *** Inputs of the shape [TYPE(SCOPE): DESC] *)

(** The generic pattern matches such an input, with the type, the
    scope and the description as groups and no force marker. *)
Lemma pattern4_accepts ty sc de :
  ty ≠ "" → all_bytes is_word ty = true →
  sc ≠ "" → all_bytes (is_not ")") sc = true →
  de ≠ "" → all_bytes is_any de = true →
  let m := ty +:+ "(" +:+ sc +:+ ")" +:+ ": " +:+ de in
  FindStringSubmatch parser.pattern4 m = Some [m; ty; ""; sc; de].
Proof.
  intros Hty1 Hty2 Hsc1 Hsc2 Hde1 Hde2 m.
  assert (Hrun : run (body parser.pattern4) m ∅ at_end
                 = Some (<["desc" := de]> (<["scope" := sc]> (<["type" := ty]> ∅)))).
  { unfold parser.pattern4, parser.scope_part. simpl body. subst m.
    rewrite run_Seq. apply run_Group_Plus; [done|done|done|].
    rewrite run_Seq, run_Opt_skip by done.
    rewrite run_Seq. apply run_Opt_take.
    rewrite run_Seq, run_Lit, run_Seq.
    apply run_Group_Plus; [done|done|done|].
    rewrite run_Lit, run_Seq, run_Lit.
    rewrite <- (sapp_nil_r de) at 1.
    by apply run_Group_Plus. }
  unfold FindStringSubmatch. rewrite Hrun.
  unfold parser.pattern4, parser.scope_part. simpl body. simpl group_names.
  simpl map. by simplify_map_eq.
Qed.

(** Two texts that differ at the first byte after runs of two classes
    are different. *)
Lemma class_run_conflict (p q : ascii → bool) u c x t d y :
  all_bytes p u = true → all_bytes q t = true →
  p d = false → q c = false → c ≠ d →
  u +:+ String c x ≠ t +:+ String d y.
Proof.
  intros Hu Ht Hd Hc Hne. revert t Ht.
  induction u as [|e u IH]; intros [|f t] Ht; rewrite ?sapp_cons, ?sapp_nil_l.
  - congruence.
  - intros [= -> _]. simpl in Ht. by rewrite Hc in Ht.
  - intros [= -> _]. simpl in Hu. by rewrite Hd in Hu.
  - intros [= -> Heq]. simpl in Hu, Ht.
    apply andb_true_iff in Hu as [_ Hu]. apply andb_true_iff in Ht as [_ Ht].
    by eapply IH.
Qed.

(** The board patterns do not match an input that starts with a word
    and an opening parenthesis. *)
Lemma board_pattern_rejects re ty rest :
  re = parser.pattern1 ∨ re = parser.pattern2 ∨ re = parser.pattern3 →
  all_bytes is_word ty = true →
  FindStringSubmatch re (ty +:+ "(" +:+ rest) = None.
Proof.
  intros Hre Hty.
  destruct (FindStringSubmatch re _) as [ms|] eqn:Hms; [exfalso|done].
  apply FindStringSubmatch_sound in Hms as (caps & Hm & _).
  apply (board_pattern_matches re _ _ Hre) in Hm as (u & x & _ & Hu & Heq).
  symmetry in Heq. revert Heq.
  by apply (class_run_conflict is_upper is_word u "-" x ty "(" rest).
Qed.

Lemma is_word_bytes c :
  is_word c = true →
  is_ascii c = true ∧ strings.space1 c = false ∧ is_lead c = false.
Proof.
  unfold is_word, in_range, is_ascii, strings.space1, is_lead. cbv zeta.
  change (N_of_ascii "0") with 48%N. change (N_of_ascii "9") with 57%N.
  change (N_of_ascii "A") with 65%N. change (N_of_ascii "Z") with 90%N.
  change (N_of_ascii "a") with 97%N. change (N_of_ascii "z") with 122%N.
  destruct (byte_eq c "_") eqn:Hc.
  - apply byte_eq_true in Hc as ->. by vm_compute.
  - rewrite orb_false_r, !orb_true_iff, !andb_true_iff, !N.leb_le.
    intros H. rewrite N.ltb_lt.
    repeat split;
      rewrite ?orb_false_iff, ?andb_false_iff, ?N.eqb_neq, ?N.leb_gt; lia.
Qed.

Lemma TrimRightSpace_word ty :
  all_bytes is_word ty = true → TrimRightSpace ty = ty.
Proof.
  induction ty as [|c ty IH]; [done|]. simpl all_bytes.
  intros [Hc Hty]%andb_true_iff.
  destruct (is_word_bytes c Hc) as (_ & Hs & Hl).
  rewrite TrimRightSpace_cons, IH by done.
  by rewrite not_space_rune_head.
Qed.

Lemma TrimLeftSpace_word ty rest :
  ty ≠ "" → all_bytes is_word ty = true →
  TrimLeftSpace (ty +:+ rest) = ty +:+ rest.
Proof.
  destruct ty as [|c ty]; [done|]. intros _. simpl all_bytes.
  intros [Hc _]%andb_true_iff.
  destruct (is_word_bytes c Hc) as (Ha & Hs & _).
  rewrite sapp_cons. apply TrimLeftSpace_head.
  unfold space_byte. by rewrite Hs, (ascii_not_high c Ha).
Qed.

Lemma TrimSpace_word ty : all_bytes is_word ty = true → TrimSpace ty = ty.
Proof.
  intros Hty. unfold TrimSpace. destruct ty as [|c ty]; [done|].
  rewrite <- (sapp_nil_r (String c ty)) at 1.
  rewrite TrimLeftSpace_word, sapp_nil_r by done.
  by apply TrimRightSpace_word.
Qed.

Lemma eqb_empty (s : string) : s ≠ "" → String.eqb s "" = false.
Proof. by destruct s. Qed.

(** Trimming an input [TYPE(SCOPE): DESC] removes the spaces that end
    the description and nothing else. *)
Lemma TrimSpace_input ty sc de :
  well_formed_input ty sc de →
  TrimSpace (ty +:+ "(" +:+ sc +:+ "): " +:+ de)
  = ty +:+ "(" +:+ sc +:+ ")" +:+ ": " +:+ TrimRightSpace de.
Proof.
  intros (Hty1 & Hty2 & _ & _ & _ & Hde). unfold TrimSpace.
  rewrite TrimLeftSpace_word by done.
  replace (ty +:+ "(" +:+ sc +:+ "): " +:+ de)
    with (((ty +:+ "(" +:+ sc +:+ "):") +:+ String " " "") +:+ de)
    by (by rewrite !sapp_assoc).
  rewrite TrimRightSpace_app_ascii by done.
  by rewrite !sapp_assoc.
Qed.

(** C9: an input [TYPE(SCOPE): DESC] whose type is a word, whose
    scope is non-empty without closing parenthesis and whose
    description is one line that is not blank parses to that type,
    that scope and that description (without the spaces that end it),
    and is rendered as the type, with [!] appended when the flag is
    set, the scope in parentheses and the description, joined by
    single spaces. *)
Theorem Parse_String_round_trip (ty sc de : string) :
  well_formed_input ty sc de →
  let message := ty +:+ "(" +:+ sc +:+ "): " +:+ de in
  let commit := (parser.Parse message).1 in
  parser.Type_ commit = ty
  ∧ parser.Scope commit = sc
  ∧ parser.Description commit = TrimRightSpace de
  ∧ parser.Board commit = ""
  ∧ parser.ForceMajor commit
    = Contains message "Breaking" || Contains message "BREAKING"
  ∧ parser.String commit
    = (if parser.ForceMajor commit then ty +:+ "!" else ty)
      +:+ " " +:+ ("(" +:+ sc +:+ ")") +:+ " " +:+ TrimRightSpace de.
Proof.
  intros Hwf message commit.
  pose proof Hwf as (Hty1 & Hty2 & Hsc1 & Hsc2 & Hde1 & Hde2).
  assert (Hde3 : all_bytes is_any (TrimRightSpace de) = true).
  { destruct (TrimRightSpace_split de) as (trail & Hsplit & _).
    rewrite Hsplit in Hde1. by apply all_bytes_app_true in Hde1 as [? _]. }
  assert (Hcommit :
    commit = parser.mkCommit "" message ty sc "" (TrimRightSpace de)
               (Contains message "Breaking" || Contains message "BREAKING")).
  { subst commit. rewrite Parse_unfold. cbn [fst].
    subst message. rewrite (TrimSpace_input ty sc de Hwf).
    change parser.patterns
      with ([parser.pattern1; parser.pattern2; parser.pattern3]
            ++ parser.pattern4 :: []).
    erewrite match_patterns_first;
      [|repeat (apply List.Forall_cons;
                [apply board_pattern_rejects; by auto|]);
        apply List.Forall_nil
       |by apply pattern4_accepts].
    rewrite assign_pattern4, (TrimSpace_word ty Hty2).
    simpl String.eqb. cbv iota. unfold scanned. cbn.
    by rewrite breaking_scan_spec. }
  rewrite Hcommit. cbn [parser.Type_ parser.Scope parser.Description
                        parser.Board parser.ForceMajor].
  repeat split; try done.
  unfold parser.String.
  cbn [parser.Type_ parser.Scope parser.Description parser.Board
       parser.ForceMajor].
  rewrite (eqb_empty ty Hty1), (eqb_empty sc Hsc1), (eqb_empty _ Hde2).
  by destruct (_ || _).
Qed.
End parse_facts.

(** ** The theorems at concrete inputs *)

Section examples.
Import version.


Lemma DetermineBump_spec_witness :
  no_force [example_commit "Fix" false]
  ∧ DetermineBump DefaultConfig
      [example_commit "Fix" false; example_commit "Docs" true;
       example_commit "Feature" false]
    = BumpMajor
  ∧ DetermineBump DefaultConfig [example_commit "Fix" false] = BumpPatch.
Proof.
  assert (Hpre : no_force [example_commit "Fix" false])
    by (by apply List.Forall_cons).
  split; [exact Hpre|]. split.
  - exact (proj1 (DetermineBump_spec DefaultConfig
                    [example_commit "Fix" false; example_commit "Docs" true])
             [example_commit "Fix" false] (example_commit "Docs" true) []
             eq_refl Hpre eq_refl [example_commit "Feature" false]).
  - destruct (proj1 (proj2 (DetermineBump_spec DefaultConfig
                              [example_commit "Fix" false])) Hpre)
      as [_ Hmax].
    destruct Hmax as (commit & Hin & ->); [done|].
    apply list_elem_of_singleton in Hin as ->. by vm_compute.
Defined.


Lemma Calculate_bump_witness :
  parseVersion DefaultConfig "1.2.3" = inl (semver.mkVersion 1 2 3)
  ∧ DetermineBump DefaultConfig [example_commit "Feature" false] = BumpMinor
  ∧ Calculate DefaultConfig "1.2.3" [example_commit "Feature" false]
    = ("1.3.0", BumpMinor, None).
Proof.
  assert (Hver : parseVersion DefaultConfig "1.2.3"
                 = inl (semver.mkVersion 1 2 3)) by (vm_compute; reflexivity).
  assert (Hbump : DetermineBump DefaultConfig [example_commit "Feature" false]
                  = BumpMinor) by (vm_compute; reflexivity).
  split; [exact Hver|]. split; [exact Hbump|].
  destruct (Calculate_bump DefaultConfig "1.2.3"
              [example_commit "Feature" false] (semver.mkVersion 1 2 3) Hver)
    as (_ & _ & _ & _ & _ & Hex).
  exact (proj1 (proj2 (Hex eq_refl eq_refl)) Hbump).
Defined.

Lemma Calculate_none_witness :
  IsValid "v1.2.3" = true
  ∧ DetermineBump DefaultConfig [example_commit "Docs" false] = BumpNone
  ∧ Calculate DefaultConfig "v1.2.3" [example_commit "Docs" false]
    = ("v1.2.3", BumpNone, None).
Proof.
  assert (Hvalid : IsValid "v1.2.3" = true) by (vm_compute; reflexivity).
  assert (Hbump : DetermineBump DefaultConfig [example_commit "Docs" false]
                  = BumpNone) by (vm_compute; reflexivity).
  split; [exact Hvalid|]. split; [exact Hbump|].
  exact (Calculate_none DefaultConfig "v1.2.3" _ Hvalid Hbump).
Defined.

Lemma Parse_String_round_trip_witness :
  well_formed_input "Feature" "log" "added logger wrap"
  ∧ parser.String (parser.Parse "Feature(log): added logger wrap").1
    = "Feature (log) added logger wrap".
Proof.
  assert (Hwf : well_formed_input "Feature" "log" "added logger wrap").
  { unfold well_formed_input. repeat split; try done; by vm_compute. }
  split; [exact Hwf|].
  destruct (Parse_String_round_trip "Feature" "log" "added logger wrap" Hwf)
    as (_ & _ & _ & _ & Hforce & Hstring).
  etrans; [exact Hstring|]. by vm_compute.
Defined.

Lemma Parse_fallback_witness :
  Forall (λ p, regexp.FindStringSubmatch p (strings.TrimSpace "  fix bug!: crash ")
               = None)
         parser.patterns
  ∧ parser.Type_ (parser.Parse "  fix bug!: crash ").1 = "fix bug"
  ∧ parser.ForceMajor (parser.Parse "  fix bug!: crash ").1 = true
  ∧ parser.Description (parser.Parse "  fix bug!: crash ").1 = "crash".
Proof.
  assert (Hnone :
    Forall (λ p, regexp.FindStringSubmatch p
                   (strings.TrimSpace "  fix bug!: crash ") = None)
           parser.patterns).
  { repeat (apply List.Forall_cons; [by vm_compute|]). apply List.Forall_nil. }
  split; [exact Hnone|].
  destruct (proj1 (proj2 (Parse_fallback "  fix bug!: crash ") Hnone)
              "  fix bug!" " crash " eq_refl eq_refl)
    as (Hty & Hforce & Hde & _).
  split; [|split].
  - etrans; [exact Hty|]. by vm_compute.
  - etrans; [exact Hforce|]. by vm_compute.
  - etrans; [exact Hde|]. by vm_compute.
Defined.

End examples.

(** ** The repository's tests, on the model *)

Section repository_tests.

(** [TestParse] *)
Example TestParse :
  parsed_fields "Feature(log): added logger wrap"
  = ("Feature", "log", "", "added logger wrap", false)
  ∧ parsed_fields "Fix: some commit" = ("Fix", "", "", "some commit", false)
  ∧ parsed_fields "B-378670(payment,spare): <Fix> removed spares update"
    = ("Fix", "payment,spare", "B-378670", "removed spares update", false)
  ∧ parsed_fields "U-1234(user): Feature some feat"
    = ("Feature", "user", "U-1234", "some feat", false)
  ∧ parsed_fields "Fix!(auth): critical security patch"
    = ("Fix", "auth", "", "critical security patch", true)
  ∧ parsed_fields "Feature: Breaking change in API"
    = ("Feature", "", "", "Breaking change in API", true)
  ∧ parsed_fields "Refactor(db): optimize queries"
    = ("Refactor", "db", "", "optimize queries", false)
  ∧ parsed_fields "Docs: update API documentation"
    = ("Docs", "", "", "update API documentation", false)
  ∧ parsed_fields "B-12345: <Build> update dependencies"
    = ("Build", "", "B-12345", "update dependencies", false)
  ∧ parsed_fields "U-9876: Tests added for parser"
    = ("Tests", "", "U-9876", "added for parser", false).
Proof. repeat split; by vm_compute. Qed.

(** [TestParseMultiple] *)
Example TestParseMultiple :
  map parser.Type_
    (parser.ParseMultiple
       ["Feature(auth): add OAuth support"; "Fix(api): handle null responses";
        "Invalid commit message without colon";
        "Refactor(db): optimize queries"; ""])
  = ["Feature"; "Fix"; "Refactor"].
Proof. by vm_compute. Qed.

(** [TestCommitString] *)
Example TestCommitString :
  parser.String (parser.mkCommit "" "" "Feature" "auth" "B-123" "add OAuth" true)
  = "B-123 Feature! (auth) add OAuth".
Proof. by vm_compute. Qed.

(** [TestCalculate] and [TestCalculateWithVPrefix] *)
Example TestCalculate :
  version.Calculate (test_config "semver") "1.2.3" [example_commit "Fix" false]
  = ("1.2.4", BumpPatch, None)
  ∧ version.Calculate (test_config "semver") "1.2.3"
      [example_commit "Feature" false]
    = ("1.3.0", BumpMinor, None)
  ∧ version.Calculate (test_config "semver") "1.2.3"
      [example_commit "Breaking" false]
    = ("2.0.0", BumpMajor, None)
  ∧ version.Calculate (test_config "semver") "1.2.3" [example_commit "Fix" true]
    = ("2.0.0", BumpMajor, None)
  ∧ version.Calculate (test_config "semver") "1.2.3"
      [example_commit "Fix" false; example_commit "Feature" false;
       example_commit "Refactor" false]
    = ("1.3.0", BumpMinor, None)
  ∧ version.Calculate (test_config "semver") "1.2.3"
      [example_commit "Fix" false; example_commit "Feature" false;
       example_commit "Breaking" false]
    = ("2.0.0", BumpMajor, None)
  ∧ version.Calculate (test_config "semver") "1.2.3" []
    = ("1.2.3", BumpNone, None)
  ∧ version.Calculate (test_config "v-prefix") "v1.2.3"
      [example_commit "Feature" false]
    = ("v1.3.0", BumpMinor, None).
Proof. repeat split; by vm_compute. Qed.

(** [TestDetermineBump] *)
Example TestDetermineBump :
  map (version.DetermineBump (test_config "semver"))
    [[example_commit "Fix" false]; [example_commit "Feature" false];
     [example_commit "Breaking" false]; [example_commit "Fix" true];
     [example_commit "Fix" false; example_commit "Feature" false];
     [example_commit "Fix" false; example_commit "Feature" false;
      example_commit "Breaking" false];
     [example_commit "Docs" false]; []]
  = [BumpPatch; BumpMinor; BumpMajor; BumpMajor; BumpMinor; BumpMajor;
     BumpNone; BumpNone].
Proof. by vm_compute. Qed.

(** [TestIsValid] *)
Example TestIsValid :
  map version.IsValid
    ["1.2.3"; "v1.2.3"; "0.0.1"; "10.20.30"; "1.2"; "1"; "invalid"; ""]
  = [true; true; true; true; true; true; false; false].
Proof. by vm_compute. Qed.

(** [TestCompare] *)
Example TestCompare :
  map (λ '(v1, v2), version.Compare v1 v2)
    [("1.2.3", "1.2.3"); ("1.2.3", "1.2.4"); ("1.2.4", "1.2.3");
     ("1.3.0", "1.2.9"); ("2.0.0", "1.9.9"); ("v1.2.3", "v1.2.3");
     ("v1.2.3", "1.2.3")]
  = [(0, None); (-1, None); (1, None); (1, None); (1, None); (0, None);
     (0, None)].
Proof. by vm_compute. Qed.

End repository_tests.
